(** * The repository generator of [main.go], embedded and verified

    [main.go] reads one Go type declaration, normalises it into a
    [Structure] (name, package, fields with their tag maps) and renders a
    repository file with four methods (Create, Select, Update, Delete).

    The embedding follows the source function by function.  Go strings are
    byte strings, modelled by [string] (a list of 8-bit [ascii]); a Go
    [map[string]string] is a [gmap string string], with the zero value
    returned for a missing key; a run-time panic is an explicit result. *)

From Stdlib Require Import ZArith Ascii String List Lia.
From stdpp Require Import base option list list_numbers strings pretty gmap.

Local Open Scope string_scope.

(** ** Characters that a Rocq string literal cannot hold directly *)

Definition dquote : ascii := "034"%char.
Definition dq : string := String dquote "".
Definition tab : string := String "009"%char "".
Definition nl : string := String "010"%char "".

(** ** The functions of Go's [strings] and [strconv] packages that the
    source calls.  Every call of [ReplaceAll] and [Split] in [main.go]
    passes a one-byte [old] or [sep], so these two take that byte. *)

Module GoStrings.

(** [strings.IndexByte(cutset, c) >= 0] *)
Fixpoint contains (cutset : string) (c : ascii) : bool :=
  match cutset with
  | "" => false
  | String d cutset' => if decide (c = d) then true else contains cutset' c
  end.

(** [strings.TrimRight(s, cutset)]: [s] without its longest suffix of
    bytes that all occur in [cutset] (the cutsets of the source are
    ASCII, so bytes and runes agree). *)
Fixpoint TrimRight (s cutset : string) : string :=
  match s with
  | "" => ""
  | String c s' =>
      match TrimRight s' cutset with
      | "" => if contains cutset c then "" else String c ""
      | r => String c r
      end
  end.

(** [strings.HasSuffix(s, suffix)] *)
Fixpoint HasSuffix (s suffix : string) : bool :=
  if decide (s = suffix) then true
  else match s with
       | "" => false
       | String _ s' => HasSuffix s' suffix
       end.

(** [strings.TrimSuffix(s, suffix)]: [s[:len(s)-len(suffix)]] when [s]
    ends with [suffix], and [s] otherwise. *)
Definition TrimSuffix (s suffix : string) : string :=
  if HasSuffix s suffix
  then String.substring 0 (String.length s - String.length suffix) s
  else s.

(** [strings.ReplaceAll(s, old, new)] for a one-byte [old]. *)
Fixpoint ReplaceAll (s : string) (old : ascii) (new : string) : string :=
  match s with
  | "" => ""
  | String c s' =>
      (if decide (c = old) then new else String c "")
        +:+ ReplaceAll s' old new
  end.

(** [strings.Split(s, sep)] for a one-byte [sep]: the pieces between
    the separators, empty pieces included; [Split("", sep)] is the
    one-element slice holding the empty string. *)
Fixpoint Split (s : string) (sep : ascii) : list string :=
  match s with
  | "" => [""]
  | String c s' =>
      if decide (c = sep) then "" :: Split s' sep
      else match Split s' sep with
           | t :: ts => String c t :: ts
           | [] => [String c ""]
           end
  end.

(** [strconv.Itoa(i)], also what [%v] prints for an [int]. *)
Definition Itoa (i : Z) : string := pretty i.

End GoStrings.
Import GoStrings.

(** ** Data model (main.go, lines 16-51)

    The records keep the names of the Go structs and of their fields,
    each in a module of its own ([Method.name], [Structure.name]); the
    field [Type] is [Type_], [Type] being a keyword.  The command-line
    front end ([main]) and [generateDirPath], which no generated text
    depends on, are left out. *)

Module Method.
Record t : Type := mk
  { comment : string;
    name    : string;
    iParams : string;
    oParams : string;
    body    : string }.
End Method.

Module Field.
Record t : Type := mk
  { Name  : string;
    Type_ : string;
    tags  : gmap string string }.
End Field.

Module Structure.
Record t : Type := mk
  { packageName : string;
    tableName   : string;
    name        : string;
    fields      : list Field.t }.
End Structure.

Module Generator.
Record t : Type := mk
  { filePath  : string;
    header    : string;
    imports   : list string;
    structure : Structure.t;
    methods   : list Method.t;
    data      : string }.
End Generator.

(** [m[key]] on a Go map: the zero value (the empty string) when the key
    is missing. *)
Definition index_map (m : gmap string string) (key : string) : string :=
  default "" (m !! key).

(** [field.tags["primary"] == "true"] *)
Definition isPrimary (field : Field.t) : bool :=
  bool_decide (index_map (Field.tags field) "primary" = "true").

(** ** Statement assembly (main.go, lines 161-187) *)

Definition generateExec (methodName sqlRequest insertingValueString : string)
  : string :=
  let execString := "" in
  let execString := execString +:+
    (tab +:+ "ctg, err := p.db.Exec(ctx, " +:+ sqlRequest +:+ ", "
         +:+ insertingValueString +:+ ")" +:+ nl) in
  let execString := execString +:+ (tab +:+ "if err != nil {" +:+ nl) in
  let execString := execString +:+
    (tab +:+ tab +:+ "return fmt.Errorf(" +:+ dq +:+ methodName
         +:+ " error: " +:+ "%w" +:+ " " +:+ dq +:+ ", err)" +:+ nl) in
  let execString := execString +:+ (tab +:+ "}" +:+ nl) in
  let execString := execString +:+
    (tab +:+ "if ctg.RowsAffected() == 0 {" +:+ nl) in
  let execString := execString +:+
    (tab +:+ tab +:+ "return fmt.Errorf(" +:+ dq +:+ methodName
         +:+ " error: no rows affected" +:+ dq +:+ ")" +:+ nl) in
  let execString := execString +:+ (tab +:+ "}" +:+ nl +:+ nl) in
  let execString := execString +:+ (tab +:+ "return nil") in
  execString.

Definition generateQueryRow
  (methodName sqlRequest whereValue scanString : string) : string :=
  let queryRowString := "" in
  let queryRowString := queryRowString +:+
    (tab +:+ "err = p.db.QueryRow(ctx, " +:+ sqlRequest +:+ ", "
         +:+ whereValue +:+ ").Scan(" +:+ scanString +:+ ")" +:+ nl) in
  let queryRowString := queryRowString +:+
    (tab +:+ "if err != nil {" +:+ nl) in
  let queryRowString := queryRowString +:+
    (tab +:+ tab +:+ "return nil, fmt.Errorf(" +:+ dq +:+ methodName
         +:+ " error: " +:+ "%w" +:+ " " +:+ dq +:+ ", err)" +:+ nl) in
  let queryRowString := queryRowString +:+ (tab +:+ "}" +:+ nl +:+ nl) in
  let queryRowString := queryRowString +:+ (tab +:+ "return element, nil") in
  queryRowString.

(** ** Operation synthesizers (main.go, lines 189-314)

    Each [for _, field := range structure.fields] loop is a left fold of
    its body over the fields; the tuple holds the loop's variables.  The
    counter [index] is a Go [int]; it ends at [len(fields) + 1], which a
    slice length (itself an [int]) keeps far from wrapping, so it is an
    unbounded [Z] here. *)

(** generateCreate, lines 198-207: [valuesString], [paramsString],
    [insertingValueString], [index]. *)
Definition createStep (vars : string * string * string * Z) (field : Field.t)
  : string * string * string * Z :=
  let '(valuesString, paramsString, insertingValueString, index) := vars in
  (valuesString +:+ ("$" +:+ Itoa index +:+ ", "),
   paramsString +:+ (index_map (Field.tags field) "column" +:+ ", "),
   insertingValueString +:+ ("data." +:+ Field.Name field +:+ ", "),
   (index + 1)%Z).

Definition createLoop (fields : list Field.t) : string * string * string * Z :=
  foldl createStep ("", "", "", 1%Z) fields.

(** generateCreate, lines 198-212: the trimmed lists and the request;
    returns [(paramsString, valuesString, sqlRequest, insertingValueString)]. *)
Definition createRequest (structure : Structure.t)
  : string * string * string * string :=
  let '(valuesString, paramsString, insertingValueString, _) :=
    createLoop (Structure.fields structure) in
  let valuesString := TrimRight valuesString ", " in
  let paramsString := TrimRight paramsString ", " in
  let insertingValueString := TrimRight insertingValueString ", " in
  let sqlRequest :=
    dq +:+ "INSERT INTO " +:+ Structure.tableName structure +:+ " ("
       +:+ paramsString +:+ ") VALUES (" +:+ valuesString +:+ ")" +:+ dq in
  (paramsString, valuesString, sqlRequest, insertingValueString).

Definition generateCreate (structure : Structure.t) : Method.t :=
  let name := Structure.name structure +:+ "Create" in
  let comment :=
    "// " +:+ name +:+ " add new " +:+ Structure.name structure
          +:+ " to database" in
  let iParams :=
    "ctx context.Context, data *" +:+ Structure.packageName structure
          +:+ "." +:+ Structure.name structure in
  let oParams := "err error" in
  let '(_, _, sqlRequest, insertingValueString) := createRequest structure in
  Method.mk comment name iParams oParams
    ("" +:+ generateExec name sqlRequest insertingValueString).

(** generateSelect, lines 224-241: [method.iParams], [whereString],
    [whereValue], [paramsString], [scanString], [index]. *)
Definition selectStep
  (vars : string * string * string * string * string * Z) (field : Field.t)
  : string * string * string * string * string * Z :=
  let '(iParams, whereString, whereValue, paramsString, scanString, index) :=
    vars in
  let '(iParams, whereString, whereValue, index) :=
    if isPrimary field then
      (iParams +:+ (Field.Name field +:+ " " +:+ Field.Type_ field +:+ ", "),
       whereString +:+ (index_map (Field.tags field) "column" +:+ " = $"
                          +:+ Itoa index +:+ " AND "),
       whereValue +:+ (Field.Name field +:+ ", "),
       (index + 1)%Z)
    else (iParams, whereString, whereValue, index) in
  (iParams, whereString, whereValue,
   paramsString +:+ (index_map (Field.tags field) "column" +:+ ", "),
   scanString +:+ ("element." +:+ Field.Name field +:+ ", "),
   index).

Definition selectLoop (fields : list Field.t)
  : string * string * string * string * string * Z :=
  foldl selectStep ("ctx context.Context, ", "", "", "", "", 1%Z) fields.

(** generateSelect, lines 224-248; returns
    [(iParams, whereString, whereValue, paramsString, scanString,
      sqlRequest)] after the trims. *)
Definition selectRequest (structure : Structure.t)
  : string * string * string * string * string * string :=
  let '(iParams, whereString, whereValue, paramsString, scanString, _) :=
    selectLoop (Structure.fields structure) in
  let iParams := TrimRight iParams ", " in
  let whereString := TrimRight whereString "AND " in
  let whereValue := TrimRight whereValue ", " in
  let paramsString := TrimSuffix paramsString ", " in
  let scanString := TrimSuffix scanString ", " in
  let sqlRequest :=
    dq +:+ "SELECT (" +:+ paramsString +:+ ") FROM "
       +:+ Structure.tableName structure +:+ " WHERE (" +:+ whereString
       +:+ ")" +:+ dq in
  (iParams, whereString, whereValue, paramsString, scanString, sqlRequest).

Definition generateSelect (structure : Structure.t) : Method.t :=
  let name := Structure.name structure +:+ "Select" in
  let comment :=
    "// " +:+ name +:+ " get " +:+ Structure.name structure
          +:+ " from database by pk" in
  let oParams :=
    "element *" +:+ Structure.packageName structure +:+ "."
          +:+ Structure.name structure +:+ ", err error" in
  let '(iParams, _, whereValue, _, scanString, sqlRequest) :=
    selectRequest structure in
  Method.mk comment name iParams oParams
    ("" +:+ generateQueryRow name sqlRequest whereValue scanString).

(** generateDelete, lines 260-273: [method.iParams], [whereString],
    [whereValue], [index]. *)
Definition deleteStep (vars : string * string * string * Z) (field : Field.t)
  : string * string * string * Z :=
  let '(iParams, whereString, whereValue, index) := vars in
  if isPrimary field then
    (iParams +:+ (Field.Name field +:+ " " +:+ Field.Type_ field +:+ ", "),
     whereString +:+ (index_map (Field.tags field) "column" +:+ " = $"
                        +:+ Itoa index +:+ " AND "),
     whereValue +:+ (Field.Name field +:+ ", "),
     (index + 1)%Z)
  else (iParams, whereString, whereValue, index).

Definition deleteLoop (fields : list Field.t) : string * string * string * Z :=
  foldl deleteStep ("ctx context.Context, ", "", "", 1%Z) fields.

(** generateDelete, lines 260-278; returns
    [(iParams, whereString, whereValue, sqlRequest)] after the trims. *)
Definition deleteRequest (structure : Structure.t)
  : string * string * string * string :=
  let '(iParams, whereString, whereValue, _) :=
    deleteLoop (Structure.fields structure) in
  let iParams := TrimRight iParams ", " in
  let whereString := TrimRight whereString "AND " in
  let whereValue := TrimRight whereValue ", " in
  let sqlRequest :=
    dq +:+ "DELETE FROM " +:+ Structure.tableName structure +:+ " WHERE ("
       +:+ whereString +:+ ")" +:+ dq in
  (iParams, whereString, whereValue, sqlRequest).

Definition generateDelete (structure : Structure.t) : Method.t :=
  let name := Structure.name structure +:+ "Delete" in
  let comment :=
    "// " +:+ name +:+ " delete " +:+ Structure.name structure
          +:+ " from database by pk" in
  let oParams := "err error" in
  let '(iParams, _, whereValue, sqlRequest) := deleteRequest structure in
  Method.mk comment name iParams oParams
    ("" +:+ generateExec name sqlRequest whereValue).

(** generateUpdate, lines 293-305: [whereString], [paramsString],
    [valueString], [index]. *)
Definition updateStep (vars : string * string * string * Z) (field : Field.t)
  : string * string * string * Z :=
  let '(whereString, paramsString, valueString, index) := vars in
  let '(whereString, paramsString) :=
    if isPrimary field then
      (whereString +:+ (index_map (Field.tags field) "column" +:+ " = $"
                          +:+ Itoa index +:+ " AND "),
       paramsString)
    else
      (whereString,
       paramsString +:+ (index_map (Field.tags field) "column" +:+ " = $"
                           +:+ Itoa index +:+ ", ")) in
  (whereString, paramsString,
   valueString +:+ ("data." +:+ Field.Name field +:+ ", "),
   (index + 1)%Z).

Definition updateLoop (fields : list Field.t) : string * string * string * Z :=
  foldl updateStep ("", "", "", 1%Z) fields.

(** generateUpdate, lines 293-310; returns
    [(whereString, paramsString, valueString, sqlRequest)] after the
    trims. *)
Definition updateRequest (structure : Structure.t)
  : string * string * string * string :=
  let '(whereString, paramsString, valueString, _) :=
    updateLoop (Structure.fields structure) in
  let whereString := TrimRight whereString "AND " in
  let paramsString := TrimRight paramsString ", " in
  let valueString := TrimRight valueString ", " in
  let sqlRequest :=
    dq +:+ "UPDATE " +:+ Structure.tableName structure +:+ " SET ("
       +:+ paramsString +:+ ") WHERE (" +:+ whereString +:+ ")" +:+ dq in
  (whereString, paramsString, valueString, sqlRequest).

Definition generateUpdate (structure : Structure.t) : Method.t :=
  let name := Structure.name structure +:+ "Update" in
  let comment :=
    "// " +:+ name +:+ " update " +:+ Structure.name structure
          +:+ " in database by pk" in
  let iParams :=
    "ctx context.Context, data *" +:+ Structure.packageName structure
          +:+ "." +:+ Structure.name structure in
  let oParams := "err error" in
  let '(_, _, valueString, sqlRequest) := updateRequest structure in
  Method.mk comment name iParams oParams
    ("" +:+ generateExec name sqlRequest valueString).

(** ** Run-time panics

    [getStructure] indexes slices and asserts dynamic types without a
    check; Go stops the program with a panic where these fail. *)

Inductive panic : Type :=
  | IndexOutOfRange      (* slice index past the end *)
  | InterfaceConversion. (* failed type assertion [x.(T)] *)

Inductive result (A : Type) : Type :=
  | Ok (a : A)
  | Panic (p : panic).
Arguments Ok {A} a.
Arguments Panic {A} p.

#[global] Instance result_ret : MRet result := fun A a => Ok a.
#[global] Instance result_bind : MBind result := fun A B f r =>
  match r with
  | Ok a => f a
  | Panic p => Panic p
  end.

(** ** The part of [go/ast] that [getStructure] inspects *)

Inductive Expr : Type :=
  | Ident (Name : string)
  | SelectorExpr (X : Expr) (Sel : string)
  | StarExpr (X : Expr)
  | ArrayType (Elt : Expr)
  | MapType (Key Value : Expr)
  | StructType (Fields : list AstField)
  | InterfaceType
with AstField : Type :=
  | mkAstField (Names : list string) (Type_ : Expr) (Tag : option string).

Module TypeSpec.
Record t : Type := mk
  { Name  : string;
    Type_ : Expr }.
End TypeSpec.

(** ** Metadata normaliser (main.go, lines 119-159) *)

(** Lines 124-132: [tagsArr], the nil slice when the field has no tag. *)
Definition tagsArrOf (Tag : option string) : list string :=
  match Tag with
  | None => []
  | Some a =>
      let a := TrimSuffix a " " in
      let a := ReplaceAll a "`" "" in
      let a := ReplaceAll a dquote "" in
      let a := ReplaceAll a ":" " " in
      Split a " "
  end.

(** Lines 134-136: [for j := 0; j < len(tagsArr); j += 2], on the part of
    [tagsArr] from [j] on; [tagsArr[j+1]] panics when [j] is the last
    index. *)
Fixpoint fillTagMap (tagsArr : list string) (tagMap : gmap string string)
  : result (gmap string string) :=
  match tagsArr with
  | [] => Ok tagMap
  | [_] => Panic IndexOutOfRange
  | key :: value :: tagsArr' => fillTagMap tagsArr' (<[key := value]> tagMap)
  end.

(** Lines 124-136. *)
Definition tagMapOf (Tag : option string) : result (gmap string string) :=
  fillTagMap (tagsArrOf Tag) ∅.

(** Lines 138-145. *)
Definition fieldTypeOf (Type_ : Expr) : result string :=
  match Type_ with
  | Ident Name => Ok Name
  | SelectorExpr (Ident XName) Sel => Ok (XName +:+ "." +:+ Sel)
  | _ => Panic InterfaceConversion
  end.

(** Lines 123-150: the body of the loop over the field list. *)
Definition getField (v : AstField) : result Field.t :=
  let '(mkAstField Names Type_ Tag) := v in
  tagMap ← tagMapOf Tag;
  fieldType ← fieldTypeOf Type_;
  match Names with
  | Name :: _ => Ok (Field.mk Name fieldType tagMap)
  | [] => Panic IndexOutOfRange
  end.

Definition getStructure (packageName : string) (typeSpec : TypeSpec.t)
  : result Structure.t :=
  match TypeSpec.Type_ typeSpec with
  | StructType list =>
      structFields ← mapM getField list;
      Ok (Structure.mk packageName "testTable" (TypeSpec.Name typeSpec)
            structFields)
  | _ => Panic InterfaceConversion
  end.

(** ** File renderer (main.go, lines 316-406) *)

Definition header : string :=
  "// code generated automatically" +:+ nl +:+
  "// can be edited by hand if needed" +:+ nl +:+
  nl +:+
  "// Package repository contains the repository layer of the application."
  +:+ nl +:+
  "// generate this file by running: go generate repository_generator -path 'path to file holding struct' -entity 'name of struct'"
  +:+ nl +:+
  "package repository".

Definition AddHeader (g : Generator.t) (header : string) : Generator.t :=
  Generator.mk (Generator.filePath g) header (Generator.imports g)
    (Generator.structure g) (Generator.methods g) (Generator.data g).

Definition AddImport (g : Generator.t) (packageName : string) : Generator.t :=
  Generator.mk (Generator.filePath g) (Generator.header g)
    (Generator.imports g ++ [packageName])
    (Generator.structure g) (Generator.methods g) (Generator.data g).

Definition AddMethod (g : Generator.t) (method : Method.t) : Generator.t :=
  Generator.mk (Generator.filePath g) (Generator.header g)
    (Generator.imports g) (Generator.structure g)
    (Generator.methods g ++ [method]) (Generator.data g).

(** [g.data.WriteString(s)] *)
Definition WriteString (g : Generator.t) (s : string) : Generator.t :=
  Generator.mk (Generator.filePath g) (Generator.header g)
    (Generator.imports g) (Generator.structure g) (Generator.methods g)
    (Generator.data g +:+ s).

(** The file system as [os.WriteFile] sees it: the files' contents, and
    whether a name can be created or truncated (its directory exists and
    is writable). *)
Module World.
Record t : Type := mk
  { files    : gmap string string;
    writable : string → bool }.
End World.

Inductive error : Type :=
  | PathError (op path : string).

(** [os.WriteFile(name, data, 0666)]: creates or truncates [name]. *)
Definition WriteFile (w : World.t) (name data : string)
  : option error * World.t :=
  if World.writable w name
  then (None, World.mk (<[name := data]> (World.files w)) (World.writable w))
  else (Some (PathError "open" name), w).

(** Lines 366-403: everything [GenerateFile] writes to [g.data]. *)
Definition renderData (g : Generator.t) : Generator.t :=
  let g := WriteString g (Generator.header g) in
  let g := WriteString g nl in
  let g := WriteString g nl in
  let g := WriteString g ("import (" +:+ nl) in
  let g := foldl (fun g importName =>
             WriteString g (tab +:+ dq +:+ importName +:+ dq +:+ nl))
             g (Generator.imports g) in
  let g := WriteString g (")" +:+ nl) in
  let g := WriteString g nl in
  let g := WriteString g
             ("// " +:+ Structure.name (Generator.structure g)
                +:+ "Manager interface to interact with database" +:+ nl) in
  let g := WriteString g
             ("type " +:+ Structure.name (Generator.structure g)
                +:+ "Manager interface {" +:+ nl) in
  let g := foldl (fun g method =>
             WriteString g
               (tab +:+ Method.name method +:+ "(" +:+ Method.iParams method
                  +:+ ") (" +:+ Method.oParams method +:+ ")" +:+ nl))
             g (Generator.methods g) in
  let g := WriteString g ("}" +:+ nl) in
  let g := WriteString g nl in
  let g := foldl (fun g method =>
             let g := WriteString g (Method.comment method +:+ nl) in
             let g := WriteString g
               ("func (p *PostgresRepository) " +:+ Method.name method
                  +:+ "(" +:+ Method.iParams method +:+ ") ("
                  +:+ Method.oParams method +:+ "){" +:+ nl) in
             let g := WriteString g (Method.body method +:+ nl) in
             WriteString g ("}" +:+ nl +:+ nl))
             g (Generator.methods g) in
  g.

Definition GenerateFile (g : Generator.t) (w : World.t)
  : option error * Generator.t * World.t :=
  let g := renderData g in
  let '(err, w) := WriteFile w (Generator.filePath g) (Generator.data g) in
  (err, g, w).

(** Lines 317-337: the generator as [Generate] hands it to
    [GenerateFile]. *)
Definition newGenerator (structure : Structure.t) : Generator.t :=
  let generator :=
    Generator.mk
      ("repository/" +:+ Structure.name structure +:+ "_repository.go")
      "" [] structure [] "" in
  let generator := AddHeader generator header in
  let generator := AddImport generator "context" in
  let generator := AddImport generator "fmt" in
  let generator := AddMethod generator (generateCreate structure) in
  let generator := AddMethod generator (generateSelect structure) in
  let generator := AddMethod generator (generateUpdate structure) in
  let generator := AddMethod generator (generateDelete structure) in
  generator.

Definition Generate (structure : Structure.t) (w : World.t)
  : option error * World.t :=
  let '(err, _, w) := GenerateFile (newGenerator structure) w in
  (err, w).

(** ** The loops of [main] (main.go, lines 77-91)

    [main] parses the file named on the command line and hands the
    declarations of the parsed file to these two loops. *)

Inductive Token : Type := IMPORT | CONST | TYPE | VAR.

#[global] Instance Token_eq_dec : EqDecision Token.
Proof. solve_decision. Defined.

(** The three kinds of [ast.Spec]. *)
Inductive Spec : Type :=
  | SpecImport
  | SpecValue
  | SpecType (typeSpec : TypeSpec.t).

(** The kinds of [ast.Decl]. *)
Inductive Decl : Type :=
  | BadDecl
  | FuncDecl
  | GenDecl (Tok : Token) (Specs : list Spec).

(** Lines 78-84: the body of the loop over [f.Decls]. *)
Definition collectStep (packageName : string) (structures : list Structure.t)
  (v : Decl) : result (list Structure.t) :=
  match v with
  | GenDecl Tok Specs =>
      if decide (Tok = TYPE) then
        match Specs with
        | [] => Panic IndexOutOfRange
        | SpecType typeSpec :: _ =>
            structure ← getStructure packageName typeSpec;
            Ok (structures ++ [structure])%list
        | _ :: _ => Panic InterfaceConversion
        end
      else Ok structures
  | _ => Panic InterfaceConversion
  end.

Fixpoint collectLoop (packageName : string) (Decls : list Decl)
  (structures : list Structure.t) : result (list Structure.t) :=
  match Decls with
  | [] => Ok structures
  | v :: Decls' =>
      structures ← collectStep packageName structures v;
      collectLoop packageName Decls' structures
  end.

(** Lines 77-84. *)
Definition collectStructures (packageName : string) (Decls : list Decl)
  : result (list Structure.t) :=
  collectLoop packageName Decls [].

(** Lines 86-91: [Generate] for each structure in turn; [panic(err)] at
    the first error, returned here as that error together with the file
    system as the stopped program leaves it. *)
Fixpoint generateAll (structures : list Structure.t) (w : World.t)
  : option error * World.t :=
  match structures with
  | [] => (None, w)
  | v :: structures' =>
      let '(err, w) := Generate v w in
      match err with
      | Some e => (Some e, w)
      | None => generateAll structures' w
      end
  end.

(** ** [generateDirPath] (main.go, lines 95-117)

    [filepath.Dir] and [filepath.Abs] belong to Go's library and depend on
    the operating system and the working directory; they are parameters
    here.  [Abs] returns the path or the text of its error. *)

Section generateDirPath.
Variable Dir : string → string.
Variable Abs : string → string + string.

Definition generateDirPath (g : Generator.t) : string + string :=
  let dir := Dir (Generator.filePath g) in
  if decide (dir = "model") then
    match Abs dir with
    | inr err =>
        inr ("generator: error while finding abs file path - " +:+ err)
    | inl path =>
        let path := TrimSuffix path "" in
        let path := ReplaceAll path "/" " " in
        let folders := Split path " " in
        let path := "" in
        let path :=
          foldl (λ path folder, (path +:+ folder) +:+ "/") path
            (take (length folders - 1) folders) in
        inl path
    end
  else
    match Abs (Dir (Generator.filePath g)) with
    | inr err =>
        inr ("generator: error while finding abs file path - " +:+ err)
    | inl path => inl path
    end.
End generateDirPath.

(** * Vocabulary of the statements *)

(** ** Ends of strings *)

(** The last byte of a string. *)
Fixpoint lastByte (s : string) : option ascii :=
  match s with
  | "" => None
  | String c "" => Some c
  | String _ s' => lastByte s'
  end.

(** [s] is not empty and its last byte is outside [cutset]: what makes
    [TrimRight s cutset] leave [s] alone. *)
Definition endsOutside (cutset s : string) : bool :=
  match lastByte s with
  | Some c => negb (contains cutset c)
  | None => false
  end.

(** Every byte of [s] occurs in [cutset]. *)
Fixpoint allIn (cutset s : string) : bool :=
  match s with
  | "" => true
  | String c s' => contains cutset c && allIn cutset s'
  end.

(** ** Lists of pieces

    [cat] is the string a loop has built by appending one piece per
    round; [String.concat sep] is the same pieces joined by [sep], with
    no separator after the last (Go's [strings.Join]). *)

Definition cat (l : list string) : string := foldr String.app "" l.

(** ** Digits *)

Definition isDigit (c : ascii) : bool := bool_decide (is_Some (Ascii.is_nat c)).

(** ** What the loops build *)

(** The fields with the value the counter has when the loop reaches
    them: [start], [start + 1], ... *)
Fixpoint numbered {A : Type} (start : Z) (l : list A) : list (Z * A) :=
  match l with
  | [] => []
  | x :: l' => (start, x) :: numbered (start + 1) l'
  end.

Definition column (field : Field.t) : string :=
  index_map (Field.tags field) "column".

(** The fields the WHERE clauses range over. *)
Definition primaries (fields : list Field.t) : list Field.t :=
  filter (λ field, isPrimary field) fields.

(** [<column> = $<i>] *)
Definition predicate (p : Z * Field.t) : string :=
  column p.2 +:+ " = $" +:+ Itoa p.1.

(** [$<i>] *)
Definition placeholder (i : Z) : string := "$" +:+ Itoa i.

(** [data.<FieldName>] *)
Definition dataValue (field : Field.t) : string :=
  "data." +:+ Field.Name field.

(** [element.<FieldName>] *)
Definition scanTarget (field : Field.t) : string :=
  "element." +:+ Field.Name field.

(** [<FieldName> <FieldType>] *)
Definition parameter (field : Field.t) : string :=
  Field.Name field +:+ " " +:+ Field.Type_ field.

(** A loop's pieces, each followed by the separator. *)
Definition pieces (sep : string) (l : list string) : string :=
  cat ((λ s, s +:+ sep) <$> l).

(** The numbered fields of Update's WHERE clause and of its SET clause. *)
Definition whereFields (index : Z) (fields : list Field.t)
  : list (Z * Field.t) :=
  filter (λ p, isPrimary p.2) (numbered index fields).

Definition setFields (index : Z) (fields : list Field.t)
  : list (Z * Field.t) :=
  filter (λ p, ¬ isPrimary p.2) (numbered index fields).

(** ** Well-formed fields *)

(** What the Go parser guarantees of a field that [getStructure] reads:
    its name is an identifier and its type an identifier or [pkg.Type].
    All the proofs use of it is that neither is empty nor ends in a comma
    or a space. *)
Definition wfField (field : Field.t) : bool :=
  endsOutside ", " (Field.Name field) && endsOutside ", " (Field.Type_ field).

(** ** Example declarations *)

(** The tag literal [`column:"id" primary:"true"`]. *)
Definition tagID : string :=
  "`column:" +:+ dq +:+ "id" +:+ dq +:+ " primary:" +:+ dq +:+ "true"
    +:+ dq +:+ "`".

(** The tag literal [`column:"name"`]. *)
Definition tagName : string := "`column:" +:+ dq +:+ "name" +:+ dq +:+ "`".

(** [type User struct { ID int64 `column:"id" primary:"true"`;
    Name string `column:"name"` }] *)
Definition userSpec : TypeSpec.t :=
  TypeSpec.mk "User"
    (StructType
       [mkAstField ["ID"] (Ident "int64") (Some tagID);
        mkAstField ["Name"] (Ident "string") (Some tagName)]).

Definition fieldID : Field.t :=
  Field.mk "ID" "int64" {[ "column" := "id"; "primary" := "true" ]}.

Definition fieldName : Field.t :=
  Field.mk "Name" "string" {[ "column" := "name" ]}.

Definition user (packageName : string) : Structure.t :=
  Structure.mk packageName "testTable" "User" [fieldID; fieldName].

(** [type User struct { ID int64 `column:"id" primary:"true"`;
    Name string }]: the last field has no tag. *)
Definition userUntaggedSpec : TypeSpec.t :=
  TypeSpec.mk "User"
    (StructType
       [mkAstField ["ID"] (Ident "int64") (Some tagID);
        mkAstField ["Name"] (Ident "string") None]).

Definition userUntagged (packageName : string) : Structure.t :=
  Structure.mk packageName "testTable" "User"
    [fieldID; Field.mk "Name" "string" ∅].

(** [type Note struct { Text string `column:"text"` }]: no primary
    field. *)
Definition note (packageName : string) : Structure.t :=
  Structure.mk packageName "testTable" "Note"
    [Field.mk "Text" "string" {[ "column" := "text" ]}].

(** ** The error contract of the generated exec methods *)

(** [ctg, err := p.db.Exec(ctx, <sql>, <values>)] *)
Definition execCall (sqlRequest values : string) : string :=
  tab +:+ "ctg, err := p.db.Exec(ctx, " +:+ sqlRequest +:+ ", " +:+ values
      +:+ ")" +:+ nl.

(** The branch for a driver error: returns the error wrapped ([%w]) in a
    message that starts with the method's name. *)
Definition driverErrorBranch (methodName : string) : string :=
  tab +:+ "if err != nil {" +:+ nl +:+
  tab +:+ tab +:+ "return fmt.Errorf(" +:+ dq +:+ methodName
      +:+ " error: %w " +:+ dq +:+ ", err)" +:+ nl +:+
  tab +:+ "}" +:+ nl.

(** The branch for an exec that changed no row. *)
Definition noRowsBranch (methodName : string) : string :=
  tab +:+ "if ctg.RowsAffected() == 0 {" +:+ nl +:+
  tab +:+ tab +:+ "return fmt.Errorf(" +:+ dq +:+ methodName
      +:+ " error: no rows affected" +:+ dq +:+ ")" +:+ nl +:+
  tab +:+ "}" +:+ nl +:+ nl.

Definition returnNil : string := tab +:+ "return nil".

(** ** The rendered file *)

Definition importLine (importName : string) : string :=
  tab +:+ dq +:+ importName +:+ dq +:+ nl.

Definition signatureLine (method : Method.t) : string :=
  tab +:+ Method.name method +:+ "(" +:+ Method.iParams method +:+ ") ("
      +:+ Method.oParams method +:+ ")" +:+ nl.

Definition methodText (method : Method.t) : string :=
  (Method.comment method +:+ nl) +:+
  ("func (p *PostgresRepository) " +:+ Method.name method +:+ "("
     +:+ Method.iParams method +:+ ") (" +:+ Method.oParams method
     +:+ "){" +:+ nl) +:+
  (Method.body method +:+ nl) +:+
  ("}" +:+ nl +:+ nl).

(** Header, imports, interface and methods, in the order of the file. *)
Definition fileText (header : string) (imports : list string)
  (typeName : string) (methods : list Method.t) : string :=
  header +:+ nl +:+ nl +:+
  "import (" +:+ nl +:+ cat (importLine <$> imports) +:+ ")" +:+ nl +:+ nl +:+
  "// " +:+ typeName +:+ "Manager interface to interact with database" +:+ nl
  +:+ "type " +:+ typeName +:+ "Manager interface {" +:+ nl
  +:+ cat (signatureLine <$> methods) +:+ "}" +:+ nl +:+ nl
  +:+ cat (methodText <$> methods).

(** The text [Generate] writes for a structure. *)
Definition repositoryText (structure : Structure.t) : string :=
  fileText header ["context"; "fmt"] (Structure.name structure)
    [generateCreate structure; generateSelect structure;
     generateUpdate structure; generateDelete structure].

Definition repositoryPath (structure : Structure.t) : string :=
  "repository/" +:+ Structure.name structure +:+ "_repository.go".

(** ** Tag strings *)

(** The bytes the normaliser treats specially: backtick, double quote,
    colon and space. *)
Definition tagPunctuation : string := "`" +:+ dq +:+ ": ".

(** No byte of [bad] occurs in [s]. *)
Fixpoint noneIn (bad s : string) : bool :=
  match bad with
  | "" => true
  | String c bad' => negb (contains s c) && noneIn bad' s
  end.

(** No byte of [s] is white space. *)
Fixpoint noSpace (s : string) : bool :=
  match s with
  | "" => true
  | String c s' => negb (Ascii.is_space c) && noSpace s'
  end.

(** A key or a value of a conventional tag: not empty, free of the tag
    punctuation and of white space. *)
Definition cleanToken (s : string) : bool :=
  bool_decide (s ≠ "") && noneIn tagPunctuation s && noSpace s.

(** [key:"value"] *)
Definition pairText (kv : string * string) : string :=
  kv.1 +:+ ":" +:+ dq +:+ kv.2 +:+ dq.

(** The raw string literal [`k1:"v1" k2:"v2" ...`], as [v.Tag.Value] holds
    it (back quotes included). *)
Definition tagLiteral (pairs : list (string * string)) : string :=
  "`" +:+ String.concat " " (pairText <$> pairs) +:+ "`".

(** [k1; v1; k2; v2; ...] *)
Definition tokensOf (pairs : list (string * string)) : list string :=
  pairs ≫= λ kv, [kv.1; kv.2].

(** The map with [tagMap[k] = v] assigned for each pair in turn. *)
Definition pairsMap (pairs : list (string * string)) : gmap string string :=
  foldl (λ tagMap kv, <[kv.1 := kv.2]> tagMap) ∅ pairs.

(** A key or a value free of the tag punctuation (it may be empty). *)
Definition plainToken (s : string) : bool := noneIn tagPunctuation s.

Definition plainPair (kv : string * string) : Prop :=
  plainToken kv.1 ∧ plainToken kv.2.

Definition cleanPair (kv : string * string) : Prop :=
  cleanToken kv.1 ∧ cleanToken kv.2.

(** ** The normaliser as section 4.1 of the specification words it

    "Strips the surrounding quote/backtick punctuation, replaces the [:]
    separator and the double-quote delimiters with a single space, and
    splits on whitespace, producing 2n tokens that are consumed pairwise".
    [specTagMap] follows these words, to be compared with [tagMapOf]. *)

Definition isQuote (c : ascii) : bool :=
  bool_decide (c = "`"%char) || bool_decide (c = dquote).

(** Without its last byte, when that is a quote or a backtick. *)
Fixpoint dropLastQuote (s : string) : string :=
  match s with
  | "" => ""
  | String c "" => if isQuote c then "" else s
  | String c s' => String c (dropLastQuote s')
  end.

(** Without the quote or backtick at either end. *)
Definition stripSurrounding (a : string) : string :=
  dropLastQuote
    match a with
    | String c a' => if isQuote c then a' else a
    | "" => ""
    end.

Definition specTokens (a : string) : list string :=
  String.words
    (ReplaceAll (ReplaceAll (stripSurrounding a) ":" " ") dquote " ").

(** [tagMap[token[2k]] = token[2k+1]] for the 2n tokens. *)
Fixpoint pairUp (tokens : list string) (tagMap : gmap string string)
  : gmap string string :=
  match tokens with
  | key :: value :: tokens' => pairUp tokens' (<[key := value]> tagMap)
  | _ => tagMap
  end.

Definition specTagMap (Tag : option string) : gmap string string :=
  match Tag with
  | None => ∅
  | Some a => pairUp (specTokens a) ∅
  end.

(** The tag literal [`column:"" primary:"true"`]: an empty value. *)
Definition tagEmptyValue : string :=
  "`column:" +:+ dq +:+ dq +:+ " primary:" +:+ dq +:+ "true" +:+ dq +:+ "`".

(** The tag literal [`column:"id"  primary:"true"`]: two spaces between
    the pairs. *)
Definition tagTwoSpaces : string :=
  "`column:" +:+ dq +:+ "id" +:+ dq +:+ "  primary:" +:+ dq +:+ "true"
    +:+ dq +:+ "`".

(** The tag literal [`column:"my id"`]: a value with a space in it. *)
Definition tagSpacedValue : string :=
  "`column:" +:+ dq +:+ "my id" +:+ dq +:+ "`".

(** The tag literal [`column:"a b c" primary:"true"`]: a value with two
    spaces in it. *)
Definition tagTwiceSpacedValue : string :=
  "`column:" +:+ dq +:+ "a b c" +:+ dq +:+ " primary:" +:+ dq +:+ "true"
    +:+ dq +:+ "`".

(** [type Bad struct { ID int64 `column:"my id"` }] *)
Definition spacedSpec : TypeSpec.t :=
  TypeSpec.mk "Bad"
    (StructType [mkAstField ["ID"] (Ident "int64") (Some tagSpacedValue)]).

(** ** Identifiers of parsed Go source *)

(** A byte of a Go identifier: an ASCII letter, a digit, the underscore,
    or a byte of a UTF-8 encoded letter. *)
Definition identByte (c : ascii) : bool :=
  let n := nat_of_ascii c in
  (Nat.leb 65 n && Nat.leb n 90) || (Nat.leb 97 n && Nat.leb n 122)
  || (Nat.leb 48 n && Nat.leb n 57) || Nat.eqb n 95 || Nat.leb 128 n.

Fixpoint identBytes (s : string) : bool :=
  match s with
  | "" => true
  | String c s' => identByte c && identBytes s'
  end.

(** A Go identifier, as the parser gives it for a field name, a type name
    or a package name. *)
Definition isIdentifier (s : string) : bool :=
  match s with
  | "" => false
  | String c _ => negb (isDigit c) && identBytes s
  end.

(** A field of the syntax tree with identifiers where [getStructure]
    reads a name. *)
Definition wfAstField (v : AstField) : Prop :=
  let '(mkAstField Names Type_ _) := v in
  Forall (λ Name, isIdentifier Name) Names
  ∧ match Type_ with
    | Ident Name => isIdentifier Name
    | SelectorExpr (Ident XName) Sel => isIdentifier XName ∧ isIdentifier Sel
    | _ => True
    end.

(** ** Readable fields *)

(** The tokens at the even positions: the keys the loop assigns. *)
Fixpoint keysOf (tokens : list string) : list string :=
  match tokens with
  | key :: _ :: tokens' => key :: keysOf tokens'
  | _ => []
  end.

(** The two shapes of a field type that [getStructure] reads: [T] and
    [pkg.T]. *)
Definition supportedType (Type_ : Expr) : Prop :=
  match Type_ with
  | Ident _ => True
  | SelectorExpr (Ident _) _ => True
  | _ => False
  end.

(** A field [getStructure] reads without a panic: it has a name, its type
    is [T] or [pkg.T], and its tag, if any, splits into an even number of
    tokens. *)
Definition fieldReadable (v : AstField) : Prop :=
  let '(mkAstField Names Type_ Tag) := v in
  Names ≠ [] ∧ supportedType Type_ ∧ Nat.Even (length (tagsArrOf Tag)).

(** What a field of the structure takes from the field of the syntax
    tree: the first name, the rendered type, the tag mapping. *)
Definition fieldOf (v : AstField) (field : Field.t) : Prop :=
  let '(mkAstField Names Type_ Tag) := v in
  head Names = Some (Field.Name field)
  ∧ fieldTypeOf Type_ = Ok (Field.Type_ field)
  ∧ tagMapOf Tag = Ok (Field.tags field).

(** ** Declarations of a file *)

(** The type specifications [main] hands to [getStructure]: the first
    specification of each [type] declaration. *)
Definition typeSpecsOf (Decls : list Decl) : list TypeSpec.t :=
  Decls ≫= λ v,
    match v with
    | GenDecl TYPE (SpecType typeSpec :: _) => [typeSpec]
    | _ => []
    end.

(** A declaration cut down to its first specification. *)
Definition firstSpecOnly (v : Decl) : Decl :=
  match v with
  | GenDecl Tok Specs => GenDecl Tok (take 1 Specs)
  | _ => v
  end.

(** The files after [Generate] has run for each structure in turn. *)
Definition filesAfter (structures : list Structure.t)
  (files : gmap string string) : gmap string string :=
  foldl (λ files structure,
           <[repositoryPath structure := repositoryText structure]> files)
    files structures.

(** ** The generated query method *)

(** [err = p.db.QueryRow(ctx, <sql>, <values>).Scan(<targets>)] *)
Definition queryCall (sqlRequest whereValue scanString : string) : string :=
  tab +:+ "err = p.db.QueryRow(ctx, " +:+ sqlRequest +:+ ", " +:+ whereValue
      +:+ ").Scan(" +:+ scanString +:+ ")" +:+ nl.

(** The branch for a query or scan error: returns no element and the
    error wrapped in a message that starts with the method's name. *)
Definition queryErrorBranch (methodName : string) : string :=
  tab +:+ "if err != nil {" +:+ nl +:+
  tab +:+ tab +:+ "return nil, fmt.Errorf(" +:+ dq +:+ methodName
      +:+ " error: %w " +:+ dq +:+ ", err)" +:+ nl +:+
  tab +:+ "}" +:+ nl +:+ nl.

Definition returnElement : string := tab +:+ "return element, nil".

(** A component of a path: free of the separator and of the space. *)
Definition pathPart (s : string) : Prop :=
  contains s "/" = false ∧ contains s " " = false.

(** * Properties *)

(** ** Byte strings *)

Section string_facts.
Implicit Types (s t u cutset sep : string) (c : ascii).

Lemma app_cons c s t : String c s +:+ t = String c (s +:+ t).
Proof. reflexivity. Qed.

Lemma app_nil_l s : "" +:+ s = s.
Proof. reflexivity. Qed.

Lemma app_nil_r s : s +:+ "" = s.
Proof. induction s as [|c s IH]; [done|]. by rewrite app_cons, IH. Qed.

Lemma app_assoc s t u : (s +:+ t) +:+ u = s +:+ (t +:+ u).
Proof. induction s as [|c s IH]; [done|]. by rewrite !app_cons, IH. Qed.

Lemma app_eq_nil s t : s +:+ t = "" → s = "" ∧ t = "".
Proof. destruct s; [done|]. by rewrite app_cons. Qed.

Lemma length_app s t :
  String.length (s +:+ t) = (String.length s + String.length t)%nat.
Proof. induction s as [|c s IH]; [done|]. rewrite app_cons; simpl. lia. Qed.
End string_facts.

Section trim_facts.
Implicit Types (s t u cutset sep : string) (c : ascii).

Lemma lastByte_cons c s : s ≠ "" → lastByte (String c s) = lastByte s.
Proof. by destruct s. Qed.

Lemma lastByte_None s : lastByte s = None → s = "".
Proof.
  induction s as [|c s IH]; [done|]. destruct s; [done|].
  intros H. by apply IH in H.
Qed.

Lemma lastByte_app s t : t ≠ "" → lastByte (s +:+ t) = lastByte t.
Proof.
  intros Ht. induction s as [|c s IH]; [done|].
  rewrite app_cons, lastByte_cons; [done|].
  intros [_ ?]%app_eq_nil. done.
Qed.

Lemma endsOutside_ne cutset s : endsOutside cutset s → s ≠ "".
Proof. by intros H ->. Qed.

Lemma endsOutside_app cutset s t :
  endsOutside cutset t → endsOutside cutset (s +:+ t).
Proof.
  intros H. unfold endsOutside.
  rewrite lastByte_app by eauto using endsOutside_ne. done.
Qed.

Lemma TrimRight_cons c s cutset :
  TrimRight (String c s) cutset =
    match TrimRight s cutset with
    | "" => if contains cutset c then "" else String c ""
    | r => String c r
    end.
Proof. reflexivity. Qed.

(** A string that ends outside the cutset is left as it is. *)
Lemma TrimRight_endsOutside s cutset :
  endsOutside cutset s → TrimRight s cutset = s.
Proof.
  induction s as [|c s IH]; [done|]. intros H.
  rewrite TrimRight_cons. destruct s as [|d s].
  - unfold endsOutside in H; simpl in *. by destruct (contains cutset c).
  - rewrite IH; [done|]. by unfold endsOutside in *.
Qed.

(** A string made of cutset bytes is trimmed away. *)
Lemma TrimRight_allIn t cutset : allIn cutset t → TrimRight t cutset = "".
Proof.
  induction t as [|c t IH]; [done|]. simpl allIn.
  intros [Hc Ht]%andb_True. rewrite TrimRight_cons, IH by done.
  by destruct (contains cutset c).
Qed.

Lemma TrimRight_app_allIn s t cutset :
  allIn cutset t → TrimRight (s +:+ t) cutset = TrimRight s cutset.
Proof.
  intros Ht. induction s as [|c s IH].
  - rewrite app_nil_l. by apply TrimRight_allIn.
  - by rewrite app_cons, !TrimRight_cons, IH.
Qed.

(** The trim the synthesizers rely on: a separator of cutset bytes
    after a string that ends outside the cutset goes, and nothing
    else. *)
Lemma TrimRight_sep s sep cutset :
  allIn cutset sep → endsOutside cutset s →
  TrimRight (s +:+ sep) cutset = s.
Proof.
  intros. rewrite TrimRight_app_allIn by done.
  by apply TrimRight_endsOutside.
Qed.

Lemma HasSuffix_app s suffix : HasSuffix (s +:+ suffix) suffix = true.
Proof.
  induction s as [|c s IH].
  - rewrite app_nil_l. destruct suffix; simpl; [done|]. by case_decide.
  - rewrite app_cons. simpl. by case_decide.
Qed.

Lemma substring_app s t :
  String.substring 0 (String.length s) (s +:+ t) = s.
Proof.
  induction s as [|c s IH].
  - by destruct t.
  - rewrite app_cons. simpl. by rewrite IH.
Qed.

Lemma TrimSuffix_app s suffix : TrimSuffix (s +:+ suffix) suffix = s.
Proof.
  unfold TrimSuffix. rewrite HasSuffix_app, length_app.
  replace (String.length s + String.length suffix - String.length suffix)%nat
    with (String.length s) by lia.
  apply substring_app.
Qed.
End trim_facts.

Section pieces.
Implicit Types (s t sep cutset : string) (l : list string).

Lemma cat_cons s l : cat (s :: l) = s +:+ cat l.
Proof. reflexivity. Qed.

Lemma cat_app l1 l2 : cat (l1 ++ l2) = cat l1 +:+ cat l2.
Proof.
  induction l1 as [|s l1 IH]; [done|].
  by rewrite <- app_comm_cons, !cat_cons, IH, app_assoc.
Qed.

Lemma concat_cons sep s l :
  l ≠ [] → String.concat sep (s :: l) = s +:+ sep +:+ String.concat sep l.
Proof. by destruct l. Qed.

Lemma cat_sep sep l :
  l ≠ [] → cat ((λ s, s +:+ sep) <$> l) = String.concat sep l +:+ sep.
Proof.
  induction l as [|s l IH]; [done|]. intros _.
  rewrite fmap_cons, cat_cons. destruct l as [|t l].
  { simpl. by rewrite app_nil_r. }
  rewrite IH, (concat_cons sep s (t :: l)) by done. by rewrite !app_assoc.
Qed.

Lemma lastByte_concat sep l s :
  last l = Some s → s ≠ "" →
  lastByte (String.concat sep l) = lastByte s.
Proof.
  intros Hl Hs. induction l as [|t l IH]; [done|].
  destruct l as [|t' l]; [by simplify_eq/=|].
  rewrite (concat_cons sep t (t' :: l)) by done.
  rewrite <- app_assoc, lastByte_app; [exact (IH Hl)|].
  intros E. assert (lastByte (String.concat sep (t' :: l)) = None) as E'
    by by rewrite E.
  rewrite (IH Hl) in E'. by apply lastByte_None in E'.
Qed.

Lemma endsOutside_concat cutset sep l s :
  last l = Some s → endsOutside cutset s →
  endsOutside cutset (String.concat sep l).
Proof.
  intros Hl Hs. unfold endsOutside.
  by erewrite lastByte_concat by eauto using endsOutside_ne.
Qed.

(** Trimming the separator that follows the last piece. *)
Lemma TrimRight_cat cutset sep l :
  allIn cutset sep →
  (∀ s, last l = Some s → endsOutside cutset s) →
  TrimRight (cat ((λ s, s +:+ sep) <$> l)) cutset = String.concat sep l.
Proof.
  intros Hsep Hl. destruct (last l) as [s|] eqn:E.
  - rewrite cat_sep by (by intros ->).
    apply TrimRight_sep; [done|]. eauto using endsOutside_concat.
  - by apply last_None in E as ->.
Qed.

Lemma TrimSuffix_cat sep l :
  TrimSuffix (cat ((λ s, s +:+ sep) <$> l)) sep = String.concat sep l.
Proof.
  destruct l as [|s l].
  - unfold TrimSuffix. simpl. by case_decide.
  - rewrite cat_sep by done. apply TrimSuffix_app.
Qed.
End pieces.

(** ** Decimal rendering ends in a digit *)

Lemma pretty_N_char_digit (x : N) : isDigit (pretty_N_char x).
Proof. unfold pretty_N_char. by repeat case_match. Qed.

Lemma lastByte_pretty_N_go (x : N) (s : string) :
  s ≠ "" → lastByte (pretty_N_go x s) = lastByte s.
Proof.
  revert s. induction (N.lt_wf_0 x) as [x _ IH]; intros s Hs.
  destruct (decide (x = 0%N)) as [->|Hx]; [done|].
  rewrite pretty_N_go_step by lia.
  rewrite IH; [by apply lastByte_cons| |done].
  apply N.div_lt; lia.
Qed.

Lemma lastByte_pretty_N (x : N) :
  ∃ d, lastByte (pretty x) = Some d ∧ isDigit d.
Proof.
  unfold pretty, pretty_N. case_decide as Hx; [by exists "0"%char|].
  rewrite pretty_N_go_step by lia.
  rewrite lastByte_pretty_N_go by done.
  eexists; split; [done|]. apply pretty_N_char_digit.
Qed.

Lemma lastByte_Itoa (i : Z) : ∃ d, lastByte (Itoa i) = Some d ∧ isDigit d.
Proof.
  unfold Itoa, pretty, pretty_Z. destruct i as [|p|p].
  - by exists "0"%char.
  - apply lastByte_pretty_N.
  - destruct (lastByte_pretty_N (Npos p)) as (d & Hd & ?).
    exists d; split; [|done]. rewrite lastByte_app; [done|].
    intros E. unfold pretty, pretty_positive in E. by rewrite E in Hd.
Qed.

(** No digit occurs in the two cutsets of the source. *)
Lemma digit_outside (d : ascii) :
  isDigit d → contains ", " d = false ∧ contains "AND " d = false.
Proof.
  destruct d as [[] [] [] [] [] [] [] []]; by vm_compute.
Qed.

Lemma endsOutside_Itoa_comma (s : string) (i : Z) :
  endsOutside ", " (s +:+ Itoa i).
Proof.
  destruct (lastByte_Itoa i) as (d & Hd & [H _]%digit_outside).
  apply endsOutside_app. unfold endsOutside. by rewrite Hd, H.
Qed.

Lemma endsOutside_Itoa_and (s : string) (i : Z) :
  endsOutside "AND " (s +:+ Itoa i).
Proof.
  destruct (lastByte_Itoa i) as (d & Hd & [_ H]%digit_outside).
  apply endsOutside_app. unfold endsOutside. by rewrite Hd, H.
Qed.

(** ** What the loops build *)

Section numbered_facts.
Context {A : Type}.
Implicit Types (l : list A) (start : Z).

Lemma numbered_fst start l :
  (numbered start l).*1 = seqZ start (Z.of_nat (length l)).
Proof.
  revert start. induction l as [|x l IH]; intros start; [done|].
  cbn [numbered fmap list_fmap length fst].
  rewrite seqZ_cons by lia. f_equal.
  change (fst <$> numbered (start + 1) l) with ((numbered (start + 1) l).*1).
  rewrite IH. f_equal; lia.
Qed.

Lemma numbered_snd start l : (numbered start l).*2 = l.
Proof.
  revert start. induction l as [|x l IH]; intros start; [done|].
  cbn [numbered fmap list_fmap snd]. f_equal. apply IH.
Qed.

Lemma length_numbered start l : length (numbered start l) = length l.
Proof. by rewrite <- (length_fmap fst), numbered_fst, length_seqZ, Nat2Z.id. Qed.
End numbered_facts.

Section loops.
Implicit Types (fields : list Field.t) (index : Z).

Lemma pieces_nil sep : pieces sep [] = "".
Proof. reflexivity. Qed.

Lemma pieces_cons sep s l : pieces sep (s :: l) = (s +:+ sep) +:+ pieces sep l.
Proof. reflexivity. Qed.

Lemma createLoop_from v p i index fields :
  foldl createStep (v, p, i, index) fields =
    (v +:+ pieces ", " (placeholder <$> (numbered index fields).*1),
     p +:+ pieces ", " (column <$> fields),
     i +:+ pieces ", " (dataValue <$> fields),
     (index + Z.of_nat (length fields))%Z).
Proof.
  revert v p i index.
  induction fields as [|field fields IH]; intros v p i index.
  - cbn [foldl numbered fmap list_fmap length]. rewrite pieces_nil.
    rewrite !app_nil_r. f_equal. lia.
  - cbn [foldl]. unfold createStep at 2. rewrite IH.
    cbn [numbered fmap list_fmap length fst]. rewrite !pieces_cons.
    unfold placeholder, dataValue, column.
    rewrite !app_assoc. f_equal. lia.
Qed.

Lemma primaries_cons field fields :
  primaries (field :: fields) =
    if isPrimary field then field :: primaries fields else primaries fields.
Proof.
  unfold primaries. destruct (isPrimary field) eqn:E.
  - by rewrite filter_cons_True by by apply Is_true_true.
  - by rewrite filter_cons_False by by apply Is_true_false.
Qed.

Lemma selectLoop_from ip ws wv ps ss index fields :
  foldl selectStep (ip, ws, wv, ps, ss, index) fields =
    (ip +:+ pieces ", " (parameter <$> primaries fields),
     ws +:+ pieces " AND " (predicate <$> numbered index (primaries fields)),
     wv +:+ pieces ", " (Field.Name <$> primaries fields),
     ps +:+ pieces ", " (column <$> fields),
     ss +:+ pieces ", " (scanTarget <$> fields),
     (index + Z.of_nat (length (primaries fields)))%Z).
Proof.
  revert ip ws wv ps ss index.
  induction fields as [|field fields IH]; intros ip ws wv ps ss index.
  - cbn [foldl numbered fmap list_fmap length primaries filter list_filter].
    rewrite pieces_nil, !app_nil_r. f_equal. lia.
  - cbn [foldl]. unfold selectStep at 2. rewrite primaries_cons.
    destruct (isPrimary field); rewrite IH;
      cbn [numbered fmap list_fmap length]; rewrite !pieces_cons;
      unfold parameter, predicate, scanTarget, column; cbn [fst snd];
      rewrite !app_assoc; f_equal; lia.
Qed.

Lemma deleteLoop_from ip ws wv index fields :
  foldl deleteStep (ip, ws, wv, index) fields =
    (ip +:+ pieces ", " (parameter <$> primaries fields),
     ws +:+ pieces " AND " (predicate <$> numbered index (primaries fields)),
     wv +:+ pieces ", " (Field.Name <$> primaries fields),
     (index + Z.of_nat (length (primaries fields)))%Z).
Proof.
  revert ip ws wv index.
  induction fields as [|field fields IH]; intros ip ws wv index.
  - cbn [foldl numbered fmap list_fmap length primaries filter list_filter].
    rewrite pieces_nil, !app_nil_r. f_equal. lia.
  - cbn [foldl]. unfold deleteStep at 2. rewrite primaries_cons.
    destruct (isPrimary field); rewrite IH; [|done].
    cbn [numbered fmap list_fmap length]. rewrite !pieces_cons.
    unfold parameter, predicate; cbn [fst snd].
    rewrite !app_assoc. f_equal. lia.
Qed.

Lemma whereFields_cons index field fields :
  whereFields index (field :: fields) =
    if isPrimary field
    then (index, field) :: whereFields (index + 1) fields
    else whereFields (index + 1) fields.
Proof.
  unfold whereFields. cbn [numbered]. destruct (isPrimary field) eqn:E.
  - by rewrite filter_cons_True by by apply Is_true_true.
  - by rewrite filter_cons_False by by apply Is_true_false.
Qed.

Lemma setFields_cons index field fields :
  setFields index (field :: fields) =
    if isPrimary field
    then setFields (index + 1) fields
    else (index, field) :: setFields (index + 1) fields.
Proof.
  unfold setFields. cbn [numbered]. destruct (isPrimary field) eqn:E.
  - rewrite filter_cons_False; [done|]. intros H. by apply H, Is_true_true.
  - by rewrite filter_cons_True by by apply Is_true_false.
Qed.

Lemma updateLoop_from ws ps vs index fields :
  foldl updateStep (ws, ps, vs, index) fields =
    (ws +:+ pieces " AND " (predicate <$> whereFields index fields),
     ps +:+ pieces ", " (predicate <$> setFields index fields),
     vs +:+ pieces ", " (dataValue <$> fields),
     (index + Z.of_nat (length fields))%Z).
Proof.
  revert ws ps vs index.
  induction fields as [|field fields IH]; intros ws ps vs index.
  - cbn [foldl fmap list_fmap length]. unfold whereFields, setFields.
    cbn [numbered filter list_filter fmap list_fmap].
    rewrite pieces_nil, !app_nil_r. f_equal. lia.
  - cbn [foldl]. unfold updateStep at 2.
    rewrite whereFields_cons, setFields_cons.
    destruct (isPrimary field); rewrite IH;
      cbn [fmap list_fmap length]; rewrite !pieces_cons;
      unfold predicate, dataValue, column; cbn [fst snd];
      rewrite !app_assoc; f_equal; lia.
Qed.
End loops.

(** ** The four requests *)

Section requests.
Implicit Types (structure : Structure.t) (fields : list Field.t).

Lemma TrimRight_pieces {A} cutset sep (g : A → string) (l : list A) :
  allIn cutset sep →
  (∀ x, last l = Some x → endsOutside cutset (g x)) →
  TrimRight (pieces sep (g <$> l)) cutset = String.concat sep (g <$> l).
Proof.
  intros Hsep Hl. apply TrimRight_cat; [done|].
  intros s. rewrite fmap_last. destruct (last l) as [x|]; [|done].
  intros [= <-]. by apply Hl.
Qed.

Lemma TrimSuffix_pieces sep (l : list string) :
  TrimSuffix (pieces sep l) sep = String.concat sep l.
Proof. apply TrimSuffix_cat. Qed.

Lemma endsOutside_predicate (p : Z * Field.t) :
  endsOutside ", " (predicate p) ∧ endsOutside "AND " (predicate p).
Proof.
  unfold predicate. rewrite <- !app_assoc.
  split; [apply endsOutside_Itoa_comma|apply endsOutside_Itoa_and].
Qed.

Lemma endsOutside_placeholder (i : Z) : endsOutside ", " (placeholder i).
Proof. apply endsOutside_Itoa_comma. Qed.

Lemma wfField_dataValue field :
  wfField field → endsOutside ", " (dataValue field).
Proof. intros [? _]%andb_True. by apply endsOutside_app. Qed.

Lemma wfField_Name field :
  wfField field → endsOutside ", " (Field.Name field).
Proof. by intros [? _]%andb_True. Qed.

Lemma wfField_parameter field :
  wfField field → endsOutside ", " (parameter field).
Proof.
  intros [_ ?]%andb_True. unfold parameter.
  rewrite <- app_assoc. by apply endsOutside_app.
Qed.

(** The input parameters of Select and Delete. *)
Lemma TrimRight_iParams fields :
  (∀ field, last (primaries fields) = Some field → wfField field) →
  TrimRight ("ctx context.Context, "
               +:+ pieces ", " (parameter <$> primaries fields)) ", " =
    String.concat ", "
      ("ctx context.Context" :: (parameter <$> primaries fields)).
Proof.
  intros Hwf.
  replace ("ctx context.Context, "
             +:+ pieces ", " (parameter <$> primaries fields))
    with (pieces ", " (id <$> "ctx context.Context" ::
                         (parameter <$> primaries fields)))
    by by rewrite list_fmap_id.
  rewrite TrimRight_pieces; [by rewrite list_fmap_id|done|].
  intros s. rewrite last_cons, fmap_last.
  destruct (last (primaries fields)) as [field|]; intros [= <-]; [|done].
  by apply wfField_parameter, Hwf.
Qed.

(** The WHERE clause of Select and Delete. *)
Lemma TrimRight_where (l : list (Z * Field.t)) :
  TrimRight ("" +:+ pieces " AND " (predicate <$> l)) "AND " =
    String.concat " AND " (predicate <$> l).
Proof.
  rewrite app_nil_l. apply TrimRight_pieces; [done|].
  intros p _. apply endsOutside_predicate.
Qed.

Lemma selectRequest_eq structure :
  let fields := Structure.fields structure in
  (∀ field, last (primaries fields) = Some field → wfField field) →
  selectRequest structure =
    (String.concat ", "
       ("ctx context.Context" :: (parameter <$> primaries fields)),
     String.concat " AND " (predicate <$> numbered 1 (primaries fields)),
     String.concat ", " (Field.Name <$> primaries fields),
     String.concat ", " (column <$> fields),
     String.concat ", " (scanTarget <$> fields),
     dq +:+ "SELECT (" +:+ String.concat ", " (column <$> fields)
        +:+ ") FROM " +:+ Structure.tableName structure +:+ " WHERE ("
        +:+ String.concat " AND "
              (predicate <$> numbered 1 (primaries fields))
        +:+ ")" +:+ dq).
Proof.
  intros fields Hwf. unfold selectRequest, selectLoop. fold fields.
  rewrite selectLoop_from, TrimRight_iParams, TrimRight_where by done.
  rewrite !app_nil_l, !TrimSuffix_pieces.
  rewrite TrimRight_pieces; [done..|].
  intros field Hf. by apply wfField_Name, Hwf.
Qed.

Lemma deleteRequest_eq structure :
  let fields := Structure.fields structure in
  (∀ field, last (primaries fields) = Some field → wfField field) →
  deleteRequest structure =
    (String.concat ", "
       ("ctx context.Context" :: (parameter <$> primaries fields)),
     String.concat " AND " (predicate <$> numbered 1 (primaries fields)),
     String.concat ", " (Field.Name <$> primaries fields),
     dq +:+ "DELETE FROM " +:+ Structure.tableName structure +:+ " WHERE ("
        +:+ String.concat " AND "
              (predicate <$> numbered 1 (primaries fields))
        +:+ ")" +:+ dq).
Proof.
  intros fields Hwf. unfold deleteRequest, deleteLoop. fold fields.
  rewrite deleteLoop_from, TrimRight_iParams, TrimRight_where by done.
  rewrite !app_nil_l.
  rewrite TrimRight_pieces; [done..|].
  intros field Hf. by apply wfField_Name, Hwf.
Qed.

Lemma updateRequest_eq structure :
  let fields := Structure.fields structure in
  (∀ field, last fields = Some field → wfField field) →
  updateRequest structure =
    (String.concat " AND " (predicate <$> whereFields 1 fields),
     String.concat ", " (predicate <$> setFields 1 fields),
     String.concat ", " (dataValue <$> fields),
     dq +:+ "UPDATE " +:+ Structure.tableName structure +:+ " SET ("
        +:+ String.concat ", " (predicate <$> setFields 1 fields)
        +:+ ") WHERE ("
        +:+ String.concat " AND " (predicate <$> whereFields 1 fields)
        +:+ ")" +:+ dq).
Proof.
  intros fields Hwf. unfold updateRequest, updateLoop. fold fields.
  rewrite updateLoop_from, TrimRight_where.
  rewrite !app_nil_l.
  rewrite (TrimRight_pieces ", " ", " predicate);
    [|done|intros p _; apply endsOutside_predicate].
  rewrite (TrimRight_pieces ", " ", " dataValue); [done..|].
  intros field Hf. by apply wfField_dataValue, Hwf.
Qed.

Lemma createRequest_eq structure :
  let fields := Structure.fields structure in
  (∀ field, last fields = Some field →
     wfField field ∧ endsOutside ", " (column field)) →
  createRequest structure =
    (String.concat ", " (column <$> fields),
     String.concat ", "
       (placeholder <$> seqZ 1 (Z.of_nat (length fields))),
     dq +:+ "INSERT INTO " +:+ Structure.tableName structure +:+ " ("
        +:+ String.concat ", " (column <$> fields) +:+ ") VALUES ("
        +:+ String.concat ", "
              (placeholder <$> seqZ 1 (Z.of_nat (length fields)))
        +:+ ")" +:+ dq,
     String.concat ", " (dataValue <$> fields)).
Proof.
  intros fields Hwf. unfold createRequest, createLoop. fold fields.
  rewrite createLoop_from, numbered_fst, !app_nil_l.
  rewrite (TrimRight_pieces ", " ", " placeholder);
    [|done|intros i _; apply endsOutside_placeholder].
  rewrite (TrimRight_pieces ", " ", " column);
    [|done|intros field Hf; by apply Hwf].
  rewrite (TrimRight_pieces ", " ", " dataValue); [done..|].
  intros field Hf. by apply wfField_dataValue, Hwf.
Qed.
End requests.

(** ** Fields read from parsed Go source are well formed *)

Section parsed_fields.
Implicit Types (s : string) (v : AstField) (field : Field.t).

Lemma identByte_outside c : identByte c → contains ", " c = false.
Proof. destruct c as [[] [] [] [] [] [] [] []]; by vm_compute. Qed.

Lemma identBytes_endsOutside s :
  s ≠ "" → identBytes s → endsOutside ", " s.
Proof.
  induction s as [|c s IH]; [done|]. intros _. simpl.
  intros [Hc Hs]%andb_True. destruct s as [|d s].
  - unfold endsOutside. cbn [lastByte]. by rewrite identByte_outside.
  - unfold endsOutside in *. rewrite lastByte_cons by done. by apply IH.
Qed.

Lemma isIdentifier_endsOutside s : isIdentifier s → endsOutside ", " s.
Proof.
  destruct s as [|c s]; [done|]. intros [_ H]%andb_True.
  by apply identBytes_endsOutside.
Qed.

Lemma getField_wf v field :
  wfAstField v → getField v = Ok field → wfField field.
Proof.
  destruct v as [Names Type_ Tag]. intros [HNames HType]. unfold getField.
  destruct (tagMapOf Tag) as [tagMap|]; [|done]. cbn [mbind result_bind].
  destruct (fieldTypeOf Type_) as [fieldType|] eqn:Etype; [|done].
  cbn [mbind result_bind]. destruct Names as [|Name Names]; [done|].
  intros [= <-]. apply Forall_cons in HNames as [HName _].
  unfold wfField; cbn [Field.Name Field.Type_]. apply andb_True. split.
  - by apply isIdentifier_endsOutside.
  - destruct Type_ as [T|[X| | | | | |] Sel| | | | |]; simplify_eq/=.
    + by apply isIdentifier_endsOutside.
    + destruct HType as [_ HSel].
      by apply endsOutside_app, endsOutside_app, isIdentifier_endsOutside.
Qed.

Lemma mapM_getField_wf (astFields : list AstField)
    (structFields : list Field.t) :
  Forall wfAstField astFields → mapM getField astFields = Ok structFields →
  Forall (λ field, wfField field) structFields.
Proof.
  intros Hwf. revert structFields.
  induction Hwf as [|v astFields Hv _ IH]; intros structFields.
  - intros [= <-]. constructor.
  - cbn [mapM]. destruct (getField v) as [field|] eqn:Efield; [|done].
    cbn [mbind result_bind]. destruct (mapM getField astFields); [|done].
    cbn [mbind result_bind mret result_ret]. intros [= <-].
    constructor; [by eapply getField_wf|by apply IH].
Qed.

(** X21.  The fields of a structure that [getStructure] returns for a
    declaration whose field names, type names and package names are Go
    identifiers have names and types that are not empty and do not end
    in a comma or a space: the well-formedness under which the trims of
    the synthesizers remove the last separator and nothing else. *)
Lemma getStructure_wf packageName typeSpec structure astFields :
  TypeSpec.Type_ typeSpec = StructType astFields →
  Forall wfAstField astFields →
  getStructure packageName typeSpec = Ok structure →
  Forall (λ field, wfField field) (Structure.fields structure).
Proof.
  intros Htype Hwf. unfold getStructure. rewrite Htype.
  destruct (mapM getField astFields) as [structFields|] eqn:E; [|done].
  cbn [mbind result_bind]. intros [= <-].
  by eapply mapM_getField_wf.
Qed.
End parsed_fields.

(** ** The claims about the synthesizers *)

Lemma getStructure_user packageName :
  getStructure packageName userSpec = Ok (user packageName).
Proof. reflexivity. Qed.

(** C1.  For the structure User with the fields ID int64 (column=id,
    primary=true) and Name string (column=name), in that order, the
    generator produces the Create request
    [INSERT INTO testTable (id, name) VALUES ($1, $2)], the Select
    request [SELECT (id, name) FROM testTable WHERE (id = $1)] with the
    input parameters [ctx context.Context, ID int64], the Update request
    [UPDATE testTable SET (name = $2) WHERE (id = $1)] and the Delete
    request [DELETE FROM testTable WHERE (id = $1)]; each request is
    the quoted Go string literal that the method body passes on. *)
Theorem user_scenario (packageName : string) :
  let structure := user packageName in
  createRequest structure =
    ("id, name", "$1, $2",
     dq +:+ "INSERT INTO testTable (id, name) VALUES ($1, $2)" +:+ dq,
     "data.ID, data.Name")
  ∧ selectRequest structure =
    ("ctx context.Context, ID int64", "id = $1", "ID", "id, name",
     "element.ID, element.Name",
     dq +:+ "SELECT (id, name) FROM testTable WHERE (id = $1)" +:+ dq)
  ∧ Method.iParams (generateSelect structure) =
      "ctx context.Context, ID int64"
  ∧ updateRequest structure =
    ("id = $1", "name = $2", "data.ID, data.Name",
     dq +:+ "UPDATE testTable SET (name = $2) WHERE (id = $1)" +:+ dq)
  ∧ deleteRequest structure =
    ("ctx context.Context, ID int64", "id = $1", "ID",
     dq +:+ "DELETE FROM testTable WHERE (id = $1)" +:+ dq)
  ∧ Method.body (generateCreate structure) =
      generateExec "UserCreate"
        (dq +:+ "INSERT INTO testTable (id, name) VALUES ($1, $2)" +:+ dq)
        "data.ID, data.Name"
  ∧ Method.body (generateSelect structure) =
      generateQueryRow "UserSelect"
        (dq +:+ "SELECT (id, name) FROM testTable WHERE (id = $1)" +:+ dq)
        "ID" "element.ID, element.Name"
  ∧ Method.body (generateUpdate structure) =
      generateExec "UserUpdate"
        (dq +:+ "UPDATE testTable SET (name = $2) WHERE (id = $1)" +:+ dq)
        "data.ID, data.Name"
  ∧ Method.body (generateDelete structure) =
      generateExec "UserDelete"
        (dq +:+ "DELETE FROM testTable WHERE (id = $1)" +:+ dq) "ID".
Proof. intros structure. repeat split; by vm_compute. Qed.

Lemma numbered_zip {A} (start : Z) (l : list A) :
  numbered start l = zip (seqZ start (Z.of_nat (length l))) l.
Proof.
  rewrite <- (zip_fst_snd (numbered start l)).
  by rewrite numbered_fst, numbered_snd.
Qed.

Lemma Forall_last {A} (P : A → Prop) (l : list A) (x : A) :
  Forall P l → last l = Some x → P x.
Proof.
  intros Hl Hx. apply last_Some_elem_of in Hx.
  by eapply Forall_forall in Hl.
Qed.

Lemma Forall_primaries (P : Field.t → Prop) (fields : list Field.t) :
  Forall P fields → Forall P (primaries fields).
Proof.
  rewrite !Forall_forall. intros H field [_ ?]%list_elem_of_filter. auto.
Qed.

#[global] Instance placeholder_inj : Inj (=) (=) placeholder.
Proof.
  intros i j H. unfold placeholder in H.
  by apply (inj (String.app "$")), (inj pretty) in H.
Qed.

(** C2.  For every structure with n fields, Update's WHERE clause holds
    the predicates of the primary fields and its SET clause those of the
    other fields, each field with the value a single counter has for it
    (1 for the first field, one more for each next field, primary or
    not); the numbers of the two clauses together are $1..$n, each once;
    the exec value list is [data.<FieldName>] for every field in
    declaration order. *)
Theorem update_placeholders (structure : Structure.t) :
  let fields := Structure.fields structure in
  let n := Z.of_nat (length fields) in
  let counted := zip (seqZ 1 n) fields in
  let whereL := filter (λ p, isPrimary p.2) counted in
  let setL := filter (λ p, ¬ isPrimary p.2) counted in
  Forall (λ field, wfField field) fields →
  updateRequest structure =
    (String.concat " AND " (predicate <$> whereL),
     String.concat ", " (predicate <$> setL),
     String.concat ", " (dataValue <$> fields),
     dq +:+ "UPDATE " +:+ Structure.tableName structure +:+ " SET ("
        +:+ String.concat ", " (predicate <$> setL) +:+ ") WHERE ("
        +:+ String.concat " AND " (predicate <$> whereL) +:+ ")" +:+ dq)
  ∧ Method.body (generateUpdate structure) =
      generateExec (Structure.name structure +:+ "Update")
        (updateRequest structure).2
        (String.concat ", " (dataValue <$> fields))
  ∧ (whereL.*1 ++ setL.*1)%list ≡ₚ seqZ 1 n
  ∧ NoDup (placeholder <$> (whereL.*1 ++ setL.*1)%list)
  ∧ length (dataValue <$> fields) = length fields.
Proof.
  intros fields n counted whereL setL Hwf.
  assert (updateRequest structure =
    (String.concat " AND " (predicate <$> whereL),
     String.concat ", " (predicate <$> setL),
     String.concat ", " (dataValue <$> fields),
     dq +:+ "UPDATE " +:+ Structure.tableName structure +:+ " SET ("
        +:+ String.concat ", " (predicate <$> setL) +:+ ") WHERE ("
        +:+ String.concat " AND " (predicate <$> whereL) +:+ ")" +:+ dq))
    as Hreq.
  { unfold whereL, setL, counted, n. rewrite <- numbered_zip.
    apply updateRequest_eq. intros field Hf.
    exact (Forall_last (λ field, wfField field) _ _ Hwf Hf). }
  assert ((whereL.*1 ++ setL.*1)%list ≡ₚ seqZ 1 n) as Hperm.
  { rewrite <- fmap_app. unfold whereL, setL.
    rewrite filter_app_complement. unfold counted.
    rewrite fst_zip; [done|]. rewrite length_seqZ. lia. }
  split; [done|]. split; [|split; [done|split]].
  - unfold generateUpdate. rewrite Hreq. reflexivity.
  - apply (NoDup_fmap_2 placeholder). rewrite Hperm. apply NoDup_seqZ.
  - apply length_fmap.
Qed.

Lemma update_placeholders_witness :
  Forall (λ field, wfField field) (Structure.fields (user "model"))
  ∧ updateRequest (user "model") =
      ("id = $1", "name = $2", "data.ID, data.Name",
       dq +:+ "UPDATE testTable SET (name = $2) WHERE (id = $1)" +:+ dq)
  ∧ NoDup ["$1"; "$2"].
Proof.
  assert (Forall (λ field, wfField field) (Structure.fields (user "model")))
    as Hwf by (repeat (constructor; [exact I|]); constructor).
  split; [exact Hwf|].
  destruct (update_placeholders (user "model") Hwf) as (Hreq & _ & _ & Hnd & _).
  split; [rewrite Hreq; reflexivity|exact Hnd].
Defined.

(** C3.  For every structure with k fields whose primary tag is "true",
    Select and Delete each build a WHERE clause of exactly k predicates
    [<column> = $<i>] joined by AND, numbered $1..$k in declaration
    order by a counter of their own that starts at 1; the input
    parameters (after the context) and the WHERE values are exactly
    those k fields in the same order. *)
Theorem select_delete_where (structure : Structure.t) :
  let fields := Structure.fields structure in
  let keys := filter (λ field, isPrimary field) fields in
  let k := Z.of_nat (length keys) in
  let counted := zip (seqZ 1 k) keys in
  Forall (λ field, wfField field) fields →
  selectRequest structure =
    (String.concat ", " ("ctx context.Context" :: (parameter <$> keys)),
     String.concat " AND " (predicate <$> counted),
     String.concat ", " (Field.Name <$> keys),
     String.concat ", " (column <$> fields),
     String.concat ", " (scanTarget <$> fields),
     dq +:+ "SELECT (" +:+ String.concat ", " (column <$> fields)
        +:+ ") FROM " +:+ Structure.tableName structure +:+ " WHERE ("
        +:+ String.concat " AND " (predicate <$> counted) +:+ ")" +:+ dq)
  ∧ deleteRequest structure =
    (String.concat ", " ("ctx context.Context" :: (parameter <$> keys)),
     String.concat " AND " (predicate <$> counted),
     String.concat ", " (Field.Name <$> keys),
     dq +:+ "DELETE FROM " +:+ Structure.tableName structure +:+ " WHERE ("
        +:+ String.concat " AND " (predicate <$> counted) +:+ ")" +:+ dq)
  ∧ Method.iParams (generateSelect structure) =
      String.concat ", " ("ctx context.Context" :: (parameter <$> keys))
  ∧ Method.iParams (generateDelete structure) =
      String.concat ", " ("ctx context.Context" :: (parameter <$> keys))
  ∧ length (predicate <$> counted) = length keys
  ∧ counted.*1 = seqZ 1 k
  ∧ counted.*2 = keys.
Proof.
  intros fields keys k counted Hwf.
  assert (∀ field, last (primaries fields) = Some field → wfField field)
    as Hlast.
  { intros field Hf.
    exact (Forall_last (λ field, wfField field) _ _
             (Forall_primaries _ _ Hwf) Hf). }
  pose proof (selectRequest_eq structure Hlast) as Hs.
  pose proof (deleteRequest_eq structure Hlast) as Hd.
  cbv zeta in Hs, Hd. rewrite numbered_zip in Hs, Hd.
  fold fields in Hs, Hd. change (primaries fields) with keys in Hs, Hd.
  fold k in Hs, Hd. fold counted in Hs, Hd.
  assert (length (seqZ 1 k) = length keys) as Hlen.
  { rewrite length_seqZ. unfold k. lia. }
  split; [done|]. split; [done|]. repeat split.
  - unfold generateSelect. by rewrite Hs.
  - unfold generateDelete. by rewrite Hd.
  - rewrite length_fmap. unfold counted. rewrite length_zip. lia.
  - apply fst_zip. lia.
  - apply snd_zip. lia.
Qed.

Lemma select_delete_where_witness :
  Forall (λ field, wfField field) (Structure.fields (user "model"))
  ∧ selectRequest (user "model") =
      ("ctx context.Context, ID int64", "id = $1", "ID", "id, name",
       "element.ID, element.Name",
       dq +:+ "SELECT (id, name) FROM testTable WHERE (id = $1)" +:+ dq)
  ∧ deleteRequest (user "model") =
      ("ctx context.Context, ID int64", "id = $1", "ID",
       dq +:+ "DELETE FROM testTable WHERE (id = $1)" +:+ dq).
Proof.
  assert (Forall (λ field, wfField field) (Structure.fields (user "model")))
    as Hwf by (repeat (constructor; [exact I|]); constructor).
  split; [exact Hwf|].
  destruct (select_delete_where (user "model") Hwf) as (Hs & Hd & _).
  split; [rewrite Hs; reflexivity|rewrite Hd; reflexivity].
Defined.

Lemma primaries_nil (fields : list Field.t) :
  Forall (λ field, index_map (Field.tags field) "primary" ≠ "true") fields →
  primaries fields = [].
Proof.
  induction 1 as [|field fields Hf _ IH]; [done|].
  rewrite primaries_cons, IH. unfold isPrimary.
  by rewrite bool_decide_eq_false_2.
Qed.

(** C10.  For every structure in which no field has the tag primary
    with the value "true", generateSelect and generateDelete still
    return a method: the request ends in [WHERE ()], the WHERE value
    string is empty and the input parameters are [ctx context.Context]
    alone. *)
Theorem no_primary_empty_where (structure : Structure.t) :
  let fields := Structure.fields structure in
  let columns := String.concat ", " (column <$> fields) in
  let targets := String.concat ", " (scanTarget <$> fields) in
  let selectSQL :=
    dq +:+ "SELECT (" +:+ columns +:+ ") FROM "
       +:+ Structure.tableName structure +:+ " WHERE ()" +:+ dq in
  let deleteSQL :=
    dq +:+ "DELETE FROM " +:+ Structure.tableName structure
       +:+ " WHERE ()" +:+ dq in
  Forall (λ field, index_map (Field.tags field) "primary" ≠ "true") fields →
  selectRequest structure =
    ("ctx context.Context", "", "", columns, targets, selectSQL)
  ∧ deleteRequest structure = ("ctx context.Context", "", "", deleteSQL)
  ∧ generateSelect structure =
      Method.mk
        ("// " +:+ (Structure.name structure +:+ "Select") +:+ " get "
           +:+ Structure.name structure +:+ " from database by pk")
        (Structure.name structure +:+ "Select")
        "ctx context.Context"
        ("element *" +:+ Structure.packageName structure +:+ "."
           +:+ Structure.name structure +:+ ", err error")
        (generateQueryRow (Structure.name structure +:+ "Select")
           selectSQL "" targets)
  ∧ generateDelete structure =
      Method.mk
        ("// " +:+ (Structure.name structure +:+ "Delete") +:+ " delete "
           +:+ Structure.name structure +:+ " from database by pk")
        (Structure.name structure +:+ "Delete")
        "ctx context.Context"
        "err error"
        (generateExec (Structure.name structure +:+ "Delete") deleteSQL "").
Proof.
  intros fields columns targets selectSQL deleteSQL Hno.
  apply primaries_nil in Hno.
  assert (∀ field, last (primaries fields) = Some field → wfField field)
    as Hlast by by rewrite Hno.
  pose proof (selectRequest_eq structure Hlast) as Hs.
  pose proof (deleteRequest_eq structure Hlast) as Hd.
  cbv zeta in Hs, Hd. fold fields in Hs, Hd. rewrite Hno in Hs, Hd.
  split; [exact Hs|]. split; [exact Hd|]. split.
  - unfold generateSelect. rewrite Hs. reflexivity.
  - unfold generateDelete. rewrite Hd. reflexivity.
Qed.

Lemma no_primary_empty_where_witness :
  Forall (λ field, index_map (Field.tags field) "primary" ≠ "true")
    (Structure.fields (note "model"))
  ∧ selectRequest (note "model") =
      ("ctx context.Context", "", "", "text", "element.Text",
       dq +:+ "SELECT (text) FROM testTable WHERE ()" +:+ dq)
  ∧ deleteRequest (note "model") =
      ("ctx context.Context", "", "",
       dq +:+ "DELETE FROM testTable WHERE ()" +:+ dq).
Proof.
  assert (Forall (λ field, index_map (Field.tags field) "primary" ≠ "true")
            (Structure.fields (note "model"))) as Hno
    by (repeat (constructor; [discriminate|]); constructor).
  split; [exact Hno|].
  destruct (no_primary_empty_where (note "model") Hno) as (Hs & Hd & _).
  split; [rewrite Hs; reflexivity|rewrite Hd; reflexivity].
Defined.

(** C4, at a structure whose last field has no tag.  For
    [type User struct { ID int64 `column:"id" primary:"true"`;
    Name string }] the normaliser returns two fields, with the columns
    [id] and the empty string.  Create numbers both ([$1, $2]) and passes
    both values, but its column list is [id] alone: [TrimRight] with the
    cutset [", "] removes every trailing comma and space, so the empty
    last column goes together with the separator before it.  Select, which
    trims the same list with [TrimSuffix], keeps one entry per field
    ([id, ]). *)
Theorem create_untagged_last_column (packageName : string) :
  let structure := userUntagged packageName in
  getStructure packageName userUntaggedSpec = Ok structure
  ∧ column <$> Structure.fields structure = ["id"; ""]
  ∧ createRequest structure =
      ("id", "$1, $2",
       dq +:+ "INSERT INTO testTable (id) VALUES ($1, $2)" +:+ dq,
       "data.ID, data.Name")
  ∧ createRequest structure ≠
      (String.concat ", " (column <$> Structure.fields structure),
       "$1, $2",
       dq +:+ "INSERT INTO testTable ("
          +:+ String.concat ", " (column <$> Structure.fields structure)
          +:+ ") VALUES ($1, $2)" +:+ dq,
       "data.ID, data.Name")
  ∧ (selectRequest structure).1.1.2 = "id, ".
Proof. intros structure. repeat split; by vm_compute. Qed.

(** ** The error contract of the generated exec methods *)

Lemma generateExec_branches (methodName sqlRequest values : string) :
  generateExec methodName sqlRequest values =
    execCall sqlRequest values +:+ driverErrorBranch methodName
      +:+ noRowsBranch methodName +:+ returnNil.
Proof.
  unfold generateExec, execCall, driverErrorBranch, noRowsBranch, returnNil.
  rewrite !app_assoc. reflexivity.
Qed.

(** C8.  For every structure, the bodies of the generated Create, Update
    and Delete methods are, in this order: the exec call, the branch that
    returns the driver's error wrapped with the method's own name, the
    separate branch that returns a "no rows affected" error when the exec
    reports zero rows, and [return nil]. *)
Theorem exec_methods_error_contract (structure : Structure.t) :
  let body (method : Method.t) (sqlRequest values : string) :=
    Method.body method =
      execCall sqlRequest values +:+ driverErrorBranch (Method.name method)
        +:+ noRowsBranch (Method.name method) +:+ returnNil in
  (Method.name (generateCreate structure) =
     Structure.name structure +:+ "Create"
   ∧ body (generateCreate structure)
       (createRequest structure).1.2 (createRequest structure).2)
  ∧ (Method.name (generateUpdate structure) =
       Structure.name structure +:+ "Update"
     ∧ body (generateUpdate structure)
         (updateRequest structure).2 (updateRequest structure).1.2)
  ∧ (Method.name (generateDelete structure) =
       Structure.name structure +:+ "Delete"
     ∧ body (generateDelete structure)
         (deleteRequest structure).2 (deleteRequest structure).1.2).
Proof.
  intros body. unfold body, generateCreate, generateUpdate, generateDelete.
  destruct (createRequest structure) as [[[? ?] ?] ?].
  destruct (updateRequest structure) as [[[? ?] ?] ?].
  destruct (deleteRequest structure) as [[[? ?] ?] ?].
  cbn [Method.name Method.body fst snd].
  rewrite !app_nil_l, !generateExec_branches. done.
Qed.

(** ** The rendered file *)

Section renderer.
Implicit Types (g : Generator.t) (w : World.t) (s t : string).

Lemma WriteString_WriteString g s t :
  WriteString (WriteString g s) t = WriteString g (s +:+ t).
Proof. unfold WriteString; simpl. by rewrite app_assoc. Qed.

Lemma WriteString_nil g : WriteString g "" = g.
Proof. destruct g. unfold WriteString; simpl. by rewrite app_nil_r. Qed.

Lemma foldl_WriteString {A} (f : A → string) (l : list A) g :
  foldl (λ g x, WriteString g (f x)) g l = WriteString g (cat (f <$> l)).
Proof.
  revert g. induction l as [|x l IH]; intros g.
  - simpl. by rewrite WriteString_nil.
  - cbn [foldl fmap list_fmap]. by rewrite IH, WriteString_WriteString.
Qed.

Lemma foldl_methodText (l : list Method.t) g :
  foldl (λ g method,
           let g := WriteString g (Method.comment method +:+ nl) in
           let g := WriteString g
             ("func (p *PostgresRepository) " +:+ Method.name method
                +:+ "(" +:+ Method.iParams method +:+ ") ("
                +:+ Method.oParams method +:+ "){" +:+ nl) in
           let g := WriteString g (Method.body method +:+ nl) in
           WriteString g ("}" +:+ nl +:+ nl)) g l =
    WriteString g (cat (methodText <$> l)).
Proof.
  revert g. induction l as [|x l IH]; intros g.
  - simpl. by rewrite WriteString_nil.
  - cbn [foldl fmap list_fmap]. cbv zeta.
    rewrite IH, !WriteString_WriteString. unfold methodText.
    rewrite cat_cons. by rewrite !app_assoc.
Qed.

Lemma renderData_eq g :
  renderData g =
    WriteString g
      (fileText (Generator.header g) (Generator.imports g)
         (Structure.name (Generator.structure g)) (Generator.methods g)).
Proof.
  unfold renderData. cbv zeta.
  rewrite foldl_methodText.
  rewrite (foldl_WriteString signatureLine).
  rewrite (foldl_WriteString importLine).
  rewrite !WriteString_WriteString.
  cbn [WriteString Generator.methods Generator.imports Generator.structure
       Generator.header].
  unfold fileText. by rewrite !app_assoc.
Qed.

Lemma Generate_eq structure w :
  Generate structure w =
    WriteFile w (repositoryPath structure) (repositoryText structure).
Proof.
  unfold Generate, GenerateFile. rewrite renderData_eq.
  cbn [newGenerator AddHeader AddImport AddMethod WriteString
       Generator.filePath Generator.data Generator.header Generator.imports
       Generator.structure Generator.methods app].
  rewrite app_nil_l.
  fold (repositoryText structure). fold (repositoryPath structure).
  by destruct (WriteFile _ _ _).
Qed.
End renderer.

(** C9.  Generation is deterministic: the text written for a structure is
    [repositoryText structure], a function of the structure alone.  Two
    runs on the same structure, from any two states of the file system in
    which the file can be written, leave the same bytes under the same
    path, and a second run after the first changes nothing. *)
Theorem generate_deterministic (structure : Structure.t) (w1 w2 : World.t) :
  World.writable w1 (repositoryPath structure) →
  World.writable w2 (repositoryPath structure) →
  Generator.data (renderData (newGenerator structure)) =
    repositoryText structure
  ∧ Generate structure w1 =
      WriteFile w1 (repositoryPath structure) (repositoryText structure)
  ∧ (Generate structure w1).1 = None
  ∧ (Generate structure w2).1 = None
  ∧ World.files (Generate structure w1).2 !! repositoryPath structure =
      Some (repositoryText structure)
  ∧ World.files (Generate structure w2).2 !! repositoryPath structure =
      Some (repositoryText structure)
  ∧ Generate structure (Generate structure w1).2 = Generate structure w1.
Proof.
  intros H1 H2. apply Is_true_true in H1, H2.
  assert (∀ w, World.writable w (repositoryPath structure) = true →
    Generate structure w =
      (None, World.mk (<[repositoryPath structure := repositoryText structure]>
                         (World.files w)) (World.writable w))) as HG.
  { intros w Hw. rewrite Generate_eq. unfold WriteFile. by rewrite Hw. }
  split; [by rewrite renderData_eq|]. split; [apply Generate_eq|].
  rewrite (HG w1 H1), (HG w2 H2). cbn [fst snd World.files].
  rewrite !lookup_insert_eq. repeat split.
  rewrite HG by done. cbn [World.files World.writable].
  by rewrite insert_insert_eq.
Qed.

Lemma generate_deterministic_witness :
  let w1 := World.mk ∅ (λ _, true) in
  let w2 :=
    World.mk {[ "repository/User_repository.go" := "package old" ]}
      (λ _, true) in
  World.files (Generate (user "model") w1).2
    !! "repository/User_repository.go" =
  World.files (Generate (user "model") w2).2
    !! "repository/User_repository.go".
Proof.
  intros w1 w2.
  destruct (generate_deterministic (user "model") w1 w2 I I)
    as (_ & _ & _ & _ & E1 & E2 & _).
  exact (eq_trans E1 (eq_sym E2)).
Defined.

(** ** Tag strings *)

Section replace_split.
Implicit Types (s t sep new : string) (c old : ascii) (l : list string).

Lemma contains_app s t c : contains (s +:+ t) c = contains s c || contains t c.
Proof.
  induction s as [|d s IH]; [done|]. rewrite app_cons. simpl.
  by case_decide.
Qed.

Lemma noneIn_contains bad s c :
  noneIn bad s → contains bad c → contains s c = false.
Proof.
  induction bad as [|d bad IH]; [done|]. simpl.
  intros [Hd Hbad]%andb_True. case_decide as E.
  - subst. by destruct (contains s d).
  - by apply IH.
Qed.

Lemma ReplaceAll_app s t old new :
  ReplaceAll (s +:+ t) old new = ReplaceAll s old new +:+ ReplaceAll t old new.
Proof.
  induction s as [|c s IH]; [done|]. rewrite app_cons. simpl.
  by rewrite IH, app_assoc.
Qed.

Lemma ReplaceAll_absent s old new :
  contains s old = false → ReplaceAll s old new = s.
Proof.
  induction s as [|c s IH]; [done|]. simpl.
  destruct (decide (old = c)) as [->|Hc]; [done|]. intros Hs.
  rewrite decide_False by done. by rewrite IH.
Qed.

Lemma ReplaceAll_concat {A} (f : A → string) (xs : list A) sep old new :
  ReplaceAll (String.concat sep (f <$> xs)) old new =
    String.concat (ReplaceAll sep old new)
      ((λ x, ReplaceAll (f x) old new) <$> xs).
Proof.
  induction xs as [|x xs IH]; [done|]. destruct xs as [|y xs]; [done|].
  rewrite !fmap_cons in *.
  rewrite (concat_cons sep (f x)), (concat_cons _ (ReplaceAll (f x) old new))
    by done.
  by rewrite !ReplaceAll_app, IH.
Qed.

Lemma Split_absent s c : contains s c = false → Split s c = [s].
Proof.
  induction s as [|d s IH]; [done|]. simpl.
  destruct (decide (c = d)) as [->|Hd]; [done|]. intros Hs.
  rewrite decide_False by done. by rewrite IH.
Qed.

Lemma Split_app s t c :
  contains s c = false → Split (s +:+ String c t) c = s :: Split t c.
Proof.
  induction s as [|d s IH].
  - intros _. rewrite app_nil_l. simpl. by rewrite decide_True.
  - rewrite app_cons. simpl.
    destruct (decide (c = d)) as [->|Hd]; [done|]. intros Hs.
    rewrite decide_False by done. by rewrite IH.
Qed.

Lemma Split_concat l c :
  l ≠ [] → Forall (λ s, contains s c = false) l →
  Split (String.concat (String c "") l) c = l.
Proof.
  intros Hl Hall. induction Hall as [|s l Hs Hall IH]; [done|].
  destruct l as [|t l]; [by apply Split_absent|].
  rewrite concat_cons by done. rewrite app_cons, app_nil_l.
  rewrite Split_app by done. by rewrite IH.
Qed.

Lemma HasSuffix_lastByte s suffix :
  HasSuffix s suffix = true → suffix ≠ "" → lastByte s = lastByte suffix.
Proof.
  intros H Hsuf. induction s as [|c s IH]; simpl in H.
  - case_decide; by subst.
  - case_decide as E; [by subst|]. destruct s as [|d s].
    + simpl in H. by case_decide.
    + rewrite lastByte_cons by done. by apply IH.
Qed.

Lemma TrimSuffix_other s suffix :
  suffix ≠ "" → lastByte s ≠ lastByte suffix → TrimSuffix s suffix = s.
Proof.
  intros Hsuf Hlast. unfold TrimSuffix.
  destruct (HasSuffix s suffix) eqn:E; [|done].
  by apply HasSuffix_lastByte in E.
Qed.
End replace_split.

Section normaliser.
Implicit Types (pairs : list (string * string)) (kv : string * string).

Lemma plainToken_absent s c :
  plainToken s → contains tagPunctuation c → contains s c = false.
Proof. apply noneIn_contains. Qed.

(** What the three [ReplaceAll] calls make of one [key:"value"]. *)
Lemma pairText_replaced kv :
  plainPair kv →
  ReplaceAll (ReplaceAll (ReplaceAll (pairText kv) "`" "") dquote "") ":" " "
    = kv.1 +:+ " " +:+ kv.2.
Proof.
  intros [Hk Hv]. unfold pairText.
  rewrite !ReplaceAll_app.
  rewrite !(ReplaceAll_absent kv.1), !(ReplaceAll_absent kv.2)
    by by apply plainToken_absent.
  vm_compute (ReplaceAll ":" _ _). vm_compute (ReplaceAll dq _ _).
  vm_compute (ReplaceAll "" _ _). vm_compute (ReplaceAll ":" _ _).
  by rewrite !app_nil_l, !app_nil_r.
Qed.

Lemma concat_tokensOf pairs :
  String.concat " " ((λ kv, kv.1 +:+ " " +:+ kv.2) <$> pairs) =
    String.concat " " (tokensOf pairs).
Proof.
  induction pairs as [|kv pairs IH]; [done|].
  destruct pairs as [|kv' pairs]; [done|].
  rewrite fmap_cons, concat_cons by done. rewrite IH.
  unfold tokensOf. cbn [mbind list_bind app].
  by rewrite !app_assoc.
Qed.

Lemma tokensOf_plain pairs :
  Forall plainPair pairs →
  Forall (λ s, contains s " " = false) (tokensOf pairs).
Proof.
  induction 1 as [|kv pairs [Hk Hv] _ IH]; [constructor|].
  unfold tokensOf. cbn [mbind list_bind app].
  repeat constructor; [by apply plainToken_absent..|done].
Qed.

Lemma tagsArrOf_literal pairs :
  pairs ≠ [] → Forall plainPair pairs →
  tagsArrOf (Some (tagLiteral pairs)) = tokensOf pairs.
Proof.
  intros Hne Hplain. unfold tagsArrOf, tagLiteral.
  rewrite TrimSuffix_other; [|done|].
  2:{ rewrite <- app_assoc, lastByte_app by done. done. }
  rewrite (ReplaceAll_app _ _ "`"), (ReplaceAll_app _ "`" "`").
  vm_compute (ReplaceAll "`" "`" _). rewrite app_nil_l, app_nil_r.
  rewrite !ReplaceAll_concat.
  vm_compute (ReplaceAll (ReplaceAll (ReplaceAll " " _ _) _ _) _ _).
  rewrite (Forall_fmap_ext_1 _ (λ kv, kv.1 +:+ " " +:+ kv.2)).
  2:{ eapply Forall_impl; [done|]. intros kv. apply pairText_replaced. }
  rewrite concat_tokensOf. apply Split_concat.
  - destruct pairs; [done|]. by unfold tokensOf.
  - by apply tokensOf_plain.
Qed.

Lemma fillTagMap_tokensOf pairs (tagMap : gmap string string) :
  fillTagMap (tokensOf pairs) tagMap =
    Ok (foldl (λ tagMap kv, <[kv.1 := kv.2]> tagMap) tagMap pairs).
Proof.
  revert tagMap. induction pairs as [|kv pairs IH]; intros tagMap; [done|].
  unfold tokensOf. cbn [mbind list_bind app fillTagMap foldl]. apply IH.
Qed.

Lemma tagMapOf_literal pairs :
  pairs ≠ [] → Forall plainPair pairs →
  tagMapOf (Some (tagLiteral pairs)) = Ok (pairsMap pairs).
Proof.
  intros. unfold tagMapOf. rewrite tagsArrOf_literal by done.
  apply fillTagMap_tokensOf.
Qed.
End normaliser.

(** ** The normaliser as the specification words it *)

Section words.
Implicit Types (s t u : string) (cur : option string).

Lemma rev_app_rev_app t u s :
  String.rev_app (String.rev_app t u) s = String.rev_app u (t +:+ s).
Proof.
  revert u s. induction t as [|a t IH]; intros u s; [done|].
  simpl. by rewrite IH.
Qed.

Lemma rev_rev_app t : String.rev (String.rev_app t "") = t.
Proof. unfold String.rev. rewrite rev_app_rev_app. simpl. apply app_nil_r. Qed.

(** A token is read up to the white space after it. *)
Lemma words_go_token t s cur :
  t ≠ "" → noSpace t →
  String.words_go cur (t +:+ s) =
    String.words_go (Some (String.rev_app t (default "" cur))) s.
Proof.
  revert cur. induction t as [|a t IH]; intros cur Ht Hns; [done|].
  simpl in Hns. apply andb_True in Hns as [Ha Hns].
  rewrite app_cons. simpl. destruct (Ascii.is_space a); [done|].
  destruct (decide (t = "")) as [->|Hne].
  - rewrite app_nil_l. by destruct cur.
  - rewrite IH by done. by destruct cur.
Qed.

Lemma words_token_space t s :
  t ≠ "" → noSpace t → String.words (t +:+ " " +:+ s) = t :: String.words s.
Proof.
  intros Ht Hns. unfold String.words. rewrite words_go_token by done.
  rewrite app_cons, app_nil_l. simpl. by rewrite rev_rev_app.
Qed.

Lemma words_token t : t ≠ "" → noSpace t → String.words t = [t].
Proof.
  intros Ht Hns. unfold String.words.
  rewrite <- (app_nil_r t) at 1. rewrite words_go_token by done.
  simpl. by rewrite rev_rev_app.
Qed.

Lemma words_token_end t : t ≠ "" → noSpace t → String.words (t +:+ " ") = [t].
Proof.
  intros. change (t +:+ " ") with (t +:+ " " +:+ "").
  by rewrite words_token_space.
Qed.

Lemma words_space s : String.words (" " +:+ s) = String.words s.
Proof. reflexivity. Qed.

Lemma dropLastQuote_backtick s : dropLastQuote (s +:+ "`") = s.
Proof.
  induction s as [|c s IH]; [done|]. rewrite app_cons.
  simpl. rewrite IH. destruct s; [done|]. by rewrite app_cons.
Qed.

Lemma stripSurrounding_backticks s : stripSurrounding ("`" +:+ s +:+ "`") = s.
Proof. apply dropLastQuote_backtick. Qed.
End words.

Section spec_normaliser.
Implicit Types (pairs : list (string * string)) (kv : string * string).

Lemma cleanToken_inv s : cleanToken s → s ≠ "" ∧ plainToken s ∧ noSpace s.
Proof.
  unfold cleanToken. intros [[H1 H2]%andb_True H3]%andb_True.
  by apply bool_decide_unpack in H1.
Qed.

Lemma cleanPair_plain kv : cleanPair kv → plainPair kv.
Proof.
  intros [(_ & ? & _)%cleanToken_inv (_ & ? & _)%cleanToken_inv]. by split.
Qed.

(** What the two replacements of the specification make of one
    [key:"value"]. *)
Lemma pairText_spaced kv :
  plainPair kv →
  ReplaceAll (ReplaceAll (pairText kv) ":" " ") dquote " " =
    kv.1 +:+ " " +:+ " " +:+ kv.2 +:+ " ".
Proof.
  intros [Hk Hv]. unfold pairText.
  rewrite !ReplaceAll_app.
  rewrite !(ReplaceAll_absent kv.1), !(ReplaceAll_absent kv.2)
    by by apply plainToken_absent.
  reflexivity.
Qed.

Lemma words_spaced pairs :
  Forall cleanPair pairs →
  String.words
    (String.concat " " ((λ kv, kv.1 +:+ " " +:+ " " +:+ kv.2 +:+ " ") <$> pairs))
    = tokensOf pairs.
Proof.
  induction 1 as [|kv pairs [Hk Hv] Hall IH]; [done|].
  apply cleanToken_inv in Hk as (Hk & _ & Hks).
  apply cleanToken_inv in Hv as (Hv & _ & Hvs).
  unfold tokensOf. cbn [mbind list_bind app]. rewrite fmap_cons.
  destruct pairs as [|kv' pairs].
  - cbn [fmap list_fmap String.concat mbind list_bind].
    by rewrite words_token_space, words_space, words_token_end.
  - rewrite concat_cons by done. rewrite !app_assoc.
    rewrite words_token_space, words_space, words_token_space by done.
    rewrite !words_space. by rewrite IH.
Qed.

Lemma pairUp_tokensOf pairs (tagMap : gmap string string) :
  pairUp (tokensOf pairs) tagMap =
    foldl (λ tagMap kv, <[kv.1 := kv.2]> tagMap) tagMap pairs.
Proof.
  revert tagMap. induction pairs as [|kv pairs IH]; intros tagMap; [done|].
  unfold tokensOf. cbn [mbind list_bind app pairUp foldl]. apply IH.
Qed.

Lemma specTagMap_literal pairs :
  Forall cleanPair pairs →
  specTagMap (Some (tagLiteral pairs)) = pairsMap pairs.
Proof.
  intros Hclean. unfold specTagMap, specTokens, tagLiteral.
  rewrite stripSurrounding_backticks, !ReplaceAll_concat.
  rewrite (Forall_fmap_ext_1 _ (λ kv, kv.1 +:+ " " +:+ " " +:+ kv.2 +:+ " ")).
  2:{ eapply Forall_impl; [done|]. intros kv Hkv.
      by apply pairText_spaced, cleanPair_plain. }
  change (ReplaceAll (ReplaceAll " " ":" " ") dquote " ") with " ".
  rewrite words_spaced by done. apply pairUp_tokensOf.
Qed.
End spec_normaliser.

(** ** The claims about the normaliser *)

Lemma numbered_lookup {A} (start : Z) (l : list A) (j : nat) (x : A) :
  l !! j = Some x → numbered start l !! j = Some ((start + Z.of_nat j)%Z, x).
Proof.
  revert start j. induction l as [|y l IH]; intros start j; [done|].
  destruct j as [|j]; simpl.
  - intros [= ->]. do 2 f_equal. lia.
  - intros Hj. rewrite (IH _ _ Hj). do 2 f_equal. lia.
Qed.

Section decomposed_fields.
Implicit Types (pre post fields : list Field.t) (field : Field.t)
  (start index : Z).

Lemma numbered_app {A} start (l1 l2 : list A) :
  numbered start (l1 ++ l2) =
    (numbered start l1
       ++ numbered (start + Z.of_nat (length l1)) l2)%list.
Proof.
  revert start. induction l1 as [|x l1 IH]; intros start.
  - cbn [app numbered length]. f_equal. lia.
  - cbn [app numbered length]. rewrite IH. do 3 f_equal. lia.
Qed.

Lemma primaries_middle pre field post :
  isPrimary field = true →
  primaries (pre ++ field :: post) =
    (primaries pre ++ field :: primaries post)%list.
Proof.
  intros Hp. unfold primaries. rewrite filter_app, filter_cons_True; [done|].
  by apply Is_true_true.
Qed.

Lemma whereFields_middle index pre field post :
  isPrimary field = true →
  whereFields index (pre ++ field :: post) =
    (whereFields index pre
       ++ (index + Z.of_nat (length pre), field)%Z
       :: whereFields (index + Z.of_nat (length pre) + 1) post)%list.
Proof.
  intros Hp. unfold whereFields. rewrite numbered_app, filter_app.
  cbn [numbered]. rewrite filter_cons_True; [done|].
  by apply Is_true_true.
Qed.

Lemma setFields_middle index pre field post :
  isPrimary field = true →
  setFields index (pre ++ field :: post) =
    (setFields index pre
       ++ setFields (index + Z.of_nat (length pre) + 1) post)%list.
Proof.
  intros Hp. unfold setFields. rewrite numbered_app, filter_app.
  cbn [numbered]. rewrite filter_cons_False; [done|].
  intros H. by apply H, Is_true_true.
Qed.
End decomposed_fields.

(** C5.  The tag string [`column:"id" primary:"true"`] normalises to the
    tag mapping with exactly the entries column→id and primary→true.  In
    every structure that has a field with this mapping, with the fields
    [pre] before it and the fields [post] after it: the WHERE clause of
    Select and of Delete holds the predicate [id = $k] of the field, k
    being one more than the number of primary fields of [pre], between
    the predicates of the primary fields of [pre] and those of [post];
    the input parameters and the WHERE values hold the field at the same
    place; the WHERE clause of Update holds [id = $i], i being the
    position of the field; and the SET clause of Update is made of the
    non-primary fields of [pre] and of [post] alone, so the field has
    no entry in it.  A round of each loop on the field does the
    same. *)
Theorem primary_tag_field :
  tagMapOf (Some tagID) = Ok {[ "column" := "id"; "primary" := "true" ]}
  ∧ ∀ (structure : Structure.t) (pre post : list Field.t)
      (field : Field.t),
      Field.tags field = {[ "column" := "id"; "primary" := "true" ]} →
      Structure.fields structure = (pre ++ field :: post)%list →
      Forall (λ field, wfField field) (Structure.fields structure) →
      let fields := Structure.fields structure in
      let table := Structure.tableName structure in
      let keysBefore := filter (λ field, isPrimary field) pre in
      let keysAfter := filter (λ field, isPrimary field) post in
      let k := (1 + Z.of_nat (length keysBefore))%Z in
      let i := (1 + Z.of_nat (length pre))%Z in
      let keys := (keysBefore ++ field :: keysAfter)%list in
      let countedPre := zip (seqZ 1 (Z.of_nat (length pre))) pre in
      let countedPost := zip (seqZ (i + 1) (Z.of_nat (length post))) post in
      let wherePredicates :=
        ((predicate
            <$> zip (seqZ 1 (Z.of_nat (length keysBefore))) keysBefore)
           ++ ("id = $" +:+ Itoa k)
           :: (predicate
                 <$> zip (seqZ (k + 1) (Z.of_nat (length keysAfter)))
                       keysAfter))%list in
      let updateWhere :=
        ((predicate <$> filter (λ p, isPrimary p.2) countedPre)
           ++ ("id = $" +:+ Itoa i)
           :: (predicate <$> filter (λ p, isPrimary p.2) countedPost))%list in
      let updateSet :=
        ((predicate <$> filter (λ p, ¬ isPrimary p.2) countedPre)
           ++ (predicate <$> filter (λ p, ¬ isPrimary p.2) countedPost))%list in
      selectRequest structure =
        (String.concat ", " ("ctx context.Context" :: (parameter <$> keys)),
         String.concat " AND " wherePredicates,
         String.concat ", " (Field.Name <$> keys),
         String.concat ", " (column <$> fields),
         String.concat ", " (scanTarget <$> fields),
         dq +:+ "SELECT (" +:+ String.concat ", " (column <$> fields)
            +:+ ") FROM " +:+ table +:+ " WHERE ("
            +:+ String.concat " AND " wherePredicates +:+ ")" +:+ dq)
      ∧ deleteRequest structure =
        (String.concat ", " ("ctx context.Context" :: (parameter <$> keys)),
         String.concat " AND " wherePredicates,
         String.concat ", " (Field.Name <$> keys),
         dq +:+ "DELETE FROM " +:+ table +:+ " WHERE ("
            +:+ String.concat " AND " wherePredicates +:+ ")" +:+ dq)
      ∧ updateRequest structure =
        (String.concat " AND " updateWhere,
         String.concat ", " updateSet,
         String.concat ", " (dataValue <$> fields),
         dq +:+ "UPDATE " +:+ table +:+ " SET ("
            +:+ String.concat ", " updateSet +:+ ") WHERE ("
            +:+ String.concat " AND " updateWhere +:+ ")" +:+ dq)
      ∧ Method.iParams (generateSelect structure) =
          String.concat ", " ("ctx context.Context" :: (parameter <$> keys))
      ∧ Method.iParams (generateDelete structure) =
          String.concat ", " ("ctx context.Context" :: (parameter <$> keys))
      ∧ (∀ iParams whereString whereValue paramsString scanString index,
           selectStep
             (iParams, whereString, whereValue, paramsString, scanString,
              index) field =
             (iParams +:+ (Field.Name field +:+ " " +:+ Field.Type_ field
                             +:+ ", "),
              whereString +:+ ("id" +:+ " = $" +:+ Itoa index +:+ " AND "),
              whereValue +:+ (Field.Name field +:+ ", "),
              paramsString +:+ ("id" +:+ ", "),
              scanString +:+ ("element." +:+ Field.Name field +:+ ", "),
              (index + 1)%Z))
      ∧ (∀ iParams whereString whereValue index,
           deleteStep (iParams, whereString, whereValue, index) field =
             (iParams +:+ (Field.Name field +:+ " " +:+ Field.Type_ field
                             +:+ ", "),
              whereString +:+ ("id" +:+ " = $" +:+ Itoa index +:+ " AND "),
              whereValue +:+ (Field.Name field +:+ ", "),
              (index + 1)%Z))
      ∧ (∀ whereString paramsString valueString index,
           updateStep (whereString, paramsString, valueString, index) field =
             (whereString +:+ ("id" +:+ " = $" +:+ Itoa index +:+ " AND "),
              paramsString,
              valueString +:+ ("data." +:+ Field.Name field +:+ ", "),
              (index + 1)%Z))
      ∧ let counted := zip (seqZ 1 (Z.of_nat (length fields))) fields in
        field ∈ filter (λ field, isPrimary field) fields
        ∧ (∃ j, (j, field) ∈ filter (λ p, isPrimary p.2) counted)
        ∧ (∀ j, (j, field) ∉ filter (λ p, ¬ isPrimary p.2) counted).
Proof.
  split; [by vm_compute|].
  intros structure pre post field Htags Hfields Hwf
    fields table keysBefore keysAfter k i keys countedPre countedPost
    wherePredicates updateWhere updateSet.
  assert (isPrimary field = true) as Hp
    by (unfold isPrimary; by rewrite Htags).
  assert (column field = "id") as Hc
    by (unfold column; by rewrite Htags).
  assert (∀ j, predicate (j, field) = "id = $" +:+ Itoa j) as Hpred.
  { intros j. unfold predicate. cbn [fst snd]. by rewrite Hc. }
  assert (primaries fields = keys) as Hkeys.
  { unfold fields. rewrite Hfields. by apply primaries_middle. }
  assert (predicate <$> numbered 1 (primaries fields) = wherePredicates)
    as Hwhere.
  { rewrite Hkeys. unfold keys. rewrite numbered_app. cbn [numbered].
    rewrite fmap_app, fmap_cons, Hpred, !numbered_zip.
    reflexivity. }
  assert (predicate <$> whereFields 1 fields = updateWhere) as HuWhere.
  { unfold fields. rewrite Hfields, whereFields_middle by done.
    rewrite fmap_app, fmap_cons, Hpred. unfold whereFields.
    rewrite !numbered_zip. reflexivity. }
  assert (predicate <$> setFields 1 fields = updateSet) as HuSet.
  { unfold fields. rewrite Hfields, setFields_middle by done.
    rewrite fmap_app. unfold setFields. rewrite !numbered_zip.
    reflexivity. }
  assert (∀ field, last (primaries fields) = Some field → wfField field)
    as Hlast.
  { intros f Hf.
    exact (Forall_last (λ field, wfField field) _ _
             (Forall_primaries _ _ Hwf) Hf). }
  assert (∀ field, last fields = Some field → wfField field) as Hlast'.
  { intros f Hf. exact (Forall_last (λ field, wfField field) _ _ Hwf Hf). }
  pose proof (selectRequest_eq structure Hlast) as Hs.
  pose proof (deleteRequest_eq structure Hlast) as Hd.
  pose proof (updateRequest_eq structure Hlast') as Hu.
  cbv zeta in Hs, Hd, Hu. fold fields in Hs, Hd, Hu. fold table in Hs, Hd, Hu.
  rewrite Hwhere, Hkeys in Hs, Hd. rewrite HuWhere, HuSet in Hu.
  split; [exact Hs|]. split; [exact Hd|]. split; [exact Hu|].
  split; [unfold generateSelect; by rewrite Hs|].
  split; [unfold generateDelete; by rewrite Hd|].
  fold (column field). unfold column in Hc.
  split; [|split; [|split]].
  - intros. unfold selectStep. by rewrite Hp, Hc.
  - intros. unfold deleteStep. by rewrite Hp, Hc.
  - intros. unfold updateStep. by rewrite Hp, Hc.
  - intros counted.
    assert (field ∈ fields) as Hin.
    { unfold fields. rewrite Hfields. apply elem_of_app. right.
      apply list_elem_of_here. }
    apply Is_true_true in Hp. repeat split.
    + by apply list_elem_of_filter.
    + apply list_elem_of_lookup_1 in Hin as [j Hj].
      exists (1 + Z.of_nat j)%Z. apply list_elem_of_filter. split; [done|].
      unfold counted. rewrite <- numbered_zip.
      eapply list_elem_of_lookup_2. by apply numbered_lookup.
    + intros j [Hn _]%list_elem_of_filter. by apply Hn.
Qed.

Lemma primary_tag_field_witness :
  Field.tags fieldID = {[ "column" := "id"; "primary" := "true" ]}
  ∧ Structure.fields (user "model") = ([] ++ fieldID :: [fieldName])%list
  ∧ Forall (λ field, wfField field) (Structure.fields (user "model"))
  ∧ selectRequest (user "model") =
      ("ctx context.Context, ID int64", "id = $1", "ID", "id, name",
       "element.ID, element.Name",
       dq +:+ "SELECT (id, name) FROM testTable WHERE (id = $1)" +:+ dq)
  ∧ deleteRequest (user "model") =
      ("ctx context.Context, ID int64", "id = $1", "ID",
       dq +:+ "DELETE FROM testTable WHERE (id = $1)" +:+ dq)
  ∧ updateRequest (user "model") =
      ("id = $1", "name = $2", "data.ID, data.Name",
       dq +:+ "UPDATE testTable SET (name = $2) WHERE (id = $1)" +:+ dq).
Proof.
  destruct primary_tag_field as [_ H].
  assert (Forall (λ field, wfField field) (Structure.fields (user "model")))
    as Hwf by (repeat (constructor; [exact I|]); constructor).
  destruct (H (user "model") [] [fieldName] fieldID eq_refl eq_refl Hwf)
    as (Hs & Hd & Hu & _).
  split; [reflexivity|]. split; [reflexivity|]. split; [exact Hwf|].
  split; [rewrite Hs; reflexivity|].
  split; [rewrite Hd; reflexivity|rewrite Hu; reflexivity].
Defined.

(** The literal [`db:"column:id,primary:true"`], a single pair whose value
    holds the two settings, does not give those entries. *)
Lemma nested_tag_tokens :
  tagsArrOf
    (Some ("`db:" +:+ dq +:+ "column:id,primary:true" +:+ dq +:+ "`")) =
    ["db"; "column"; "id,primary"; "true"].
Proof. reflexivity. Qed.

Lemma pairsMap_snoc (pairs : list (string * string)) (kv : string * string) :
  pairsMap (pairs ++ [kv]) = <[kv.1 := kv.2]> (pairsMap pairs).
Proof. unfold pairsMap. by rewrite foldl_snoc. Qed.

(** The last pair with a key decides the key's value. *)
Lemma pairsMap_lookup (pairs : list (string * string)) (i : nat)
    (kv : string * string) :
  pairs !! i = Some kv →
  (∀ j kv', i < j → pairs !! j = Some kv' → kv'.1 ≠ kv.1) →
  pairsMap pairs !! kv.1 = Some kv.2.
Proof.
  induction pairs as [|kv0 pairs IH] using rev_ind; [done|].
  intros Hi Hlater. rewrite pairsMap_snoc.
  apply lookup_snoc_Some in Hi as [[Hlt Hi]|[-> ->]].
  - rewrite lookup_insert_ne.
    + apply IH; [done|]. intros j kv' Hj Hkv'.
      apply (Hlater j); [done|]. by apply lookup_app_l_Some.
    + apply (Hlater (length pairs)); [done|]. apply list_lookup_middle. done.
  - apply lookup_insert_eq.
Qed.

(** C6, as the code has it.  For a field whose tag string is a
    back-quoted sequence of one or more [key:"value"] pairs separated by
    single spaces, with keys and values that are not empty and hold no
    backtick, double quote, colon or white space, the normaliser's tokens
    are [k1; v1; ...; kn; vn] and its tag mapping assigns
    [tagMap[k_i] = v_i] pair by pair (the last pair with a key decides);
    this is the mapping that the algorithm of the specification gives.  A
    field without a tag string has the empty mapping. *)
Theorem conventional_tag_mapping (pairs : list (string * string)) :
  pairs ≠ [] → Forall cleanPair pairs →
  tagsArrOf (Some (tagLiteral pairs)) = tokensOf pairs
  ∧ tagMapOf (Some (tagLiteral pairs)) = Ok (pairsMap pairs)
  ∧ tagMapOf (Some (tagLiteral pairs)) =
      Ok (specTagMap (Some (tagLiteral pairs)))
  ∧ (∀ i kv, pairs !! i = Some kv →
       (∀ j kv', i < j → pairs !! j = Some kv' → kv'.1 ≠ kv.1) →
       pairsMap pairs !! kv.1 = Some kv.2)
  ∧ tagMapOf None = Ok ∅
  ∧ specTagMap None = ∅.
Proof.
  intros Hne Hclean.
  assert (Forall plainPair pairs) as Hplain.
  { eapply Forall_impl; [done|]. apply cleanPair_plain. }
  rewrite specTagMap_literal by done.
  rewrite tagsArrOf_literal, tagMapOf_literal by done.
  repeat split. apply pairsMap_lookup.
Qed.

Lemma conventional_tag_mapping_witness :
  [("column", "id"); ("primary", "true")] ≠ []
  ∧ Forall cleanPair [("column", "id"); ("primary", "true")]
  ∧ tagLiteral [("column", "id"); ("primary", "true")] = tagID
  ∧ tagMapOf (Some tagID) = Ok {[ "column" := "id"; "primary" := "true" ]}.
Proof.
  assert ([("column", "id"); ("primary", "true")] ≠ []) as Hne by discriminate.
  assert (Forall cleanPair [("column", "id"); ("primary", "true")]) as Hclean
    by (repeat (constructor; [split; exact I|]); constructor).
  destruct (conventional_tag_mapping _ Hne Hclean) as (_ & Hmap & _).
  split; [exact Hne|]. split; [exact Hclean|]. split; [reflexivity|].
  exact Hmap.
Defined.

(** C6 as the specification words it fails: for the tag
    [`column:"" primary:"true"`] the code deletes the quotes and splits at
    each space, so it pairs column with the empty string and primary with
    true, while the worded algorithm (quotes to spaces, split on white
    space) sees the three tokens column, primary, true; and for the tag
    [`column:"id"  primary:"true"`] the code finds five tokens and
    panics, while the worded algorithm finds the two pairs. *)
Lemma tag_mapping_differs_from_wording :
  tagMapOf (Some tagEmptyValue) ≠ Ok (specTagMap (Some tagEmptyValue))
  ∧ tagMapOf (Some tagTwoSpaces) ≠ Ok (specTagMap (Some tagTwoSpaces)).
Proof.
  split.
  - intros E.
    apply (f_equal (λ r : result (gmap string string),
                      match r with
                      | Ok tagMap => tagMap !! "primary"
                      | Panic _ => None
                      end)) in E.
    by vm_compute in E.
  - by vm_compute.
Qed.

Lemma fillTagMap_even (tagsArr : list string) (tagMap : gmap string string) :
  Nat.Even (length tagsArr) →
  fillTagMap tagsArr tagMap = Ok (pairUp tagsArr tagMap).
Proof.
  intros [n Hn]. revert tagsArr tagMap Hn.
  induction n as [|n IH]; intros tagsArr tagMap Hn.
  - by destruct tagsArr.
  - destruct tagsArr as [|key [|value tagsArr]]; simpl in Hn; [lia..|].
    simpl. apply IH. lia.
Qed.

Lemma fillTagMap_odd (tagsArr : list string) (tagMap : gmap string string) :
  Nat.Odd (length tagsArr) →
  fillTagMap tagsArr tagMap = Panic IndexOutOfRange.
Proof.
  intros [n Hn]. revert tagsArr tagMap Hn.
  induction n as [|n IH]; intros tagsArr tagMap Hn.
  - destruct tagsArr as [|key [|value tagsArr]]; simpl in Hn; [lia|done|lia].
  - destruct tagsArr as [|key [|value tagsArr]]; simpl in Hn; [lia..|].
    simpl. apply IH. lia.
Qed.

(** C7 fails as worded: the tag [`column:"my id"`], whose value holds a
    space, gives the three tokens column, my, id; the loop reads
    [tagsArr[3]] and the program stops with an index-out-of-range panic:
    no tag mapping and no structure is produced. *)
Lemma spaced_value_panics :
  tagsArrOf (Some tagSpacedValue) = ["column"; "my"; "id"]
  ∧ (∀ tagMap, tagMapOf (Some tagSpacedValue) ≠ Ok tagMap)
  ∧ getStructure "model" spacedSpec = Panic IndexOutOfRange.
Proof.
  split; [reflexivity|]. split; [|reflexivity].
  intros tagMap E.
  assert (tagMapOf (Some tagSpacedValue) = Panic IndexOutOfRange) as E'
    by reflexivity.
  rewrite E' in E. discriminate.
Qed.

(** C7, as the code has it.  For every tag string whose token sequence
    has an even length, well formed or not, the normaliser completes
    without a panic: the tag mapping pairs the tokens two by two,
    whatever they are, and the field is built when its type and name
    are readable. *)
Theorem even_token_count_completes (a : string) :
  Nat.Even (length (tagsArrOf (Some a))) →
  tagMapOf (Some a) = Ok (pairUp (tagsArrOf (Some a)) ∅)
  ∧ ∀ Name Names Type_ fieldType,
      fieldTypeOf Type_ = Ok fieldType →
      getField (mkAstField (Name :: Names) Type_ (Some a)) =
        Ok (Field.mk Name fieldType (pairUp (tagsArrOf (Some a)) ∅)).
Proof.
  intros Heven.
  assert (tagMapOf (Some a) = Ok (pairUp (tagsArrOf (Some a)) ∅)) as Hmap
    by by apply fillTagMap_even.
  split; [done|]. intros Name Names Type_ fieldType Htype.
  unfold getField. rewrite Hmap, Htype. reflexivity.
Qed.

Lemma even_token_count_completes_witness :
  Nat.Even (length (tagsArrOf (Some tagTwiceSpacedValue)))
  ∧ tagsArrOf (Some tagTwiceSpacedValue) =
      ["column"; "a"; "b"; "c"; "primary"; "true"]
  ∧ tagMapOf (Some tagTwiceSpacedValue) =
      Ok {[ "column" := "a"; "b" := "c"; "primary" := "true" ]}.
Proof.
  assert (Nat.Even (length (tagsArrOf (Some tagTwiceSpacedValue)))) as Heven
    by (exists 3; reflexivity).
  destruct (even_token_count_completes tagTwiceSpacedValue Heven) as [Hmap _].
  split; [exact Heven|]. split; [reflexivity|]. exact Hmap.
Defined.

(** * Further properties of the synthesizers *)

Section sql_texts.
Implicit Types (structure : Structure.t) (fields : list Field.t).

Lemma selectRequest_parts structure :
  let fields := Structure.fields structure in
  ∃ iParams whereValue,
    selectRequest structure =
      (iParams,
       String.concat " AND " (predicate <$> numbered 1 (primaries fields)),
       whereValue,
       String.concat ", " (column <$> fields),
       String.concat ", " (scanTarget <$> fields),
       dq +:+ "SELECT (" +:+ String.concat ", " (column <$> fields)
          +:+ ") FROM " +:+ Structure.tableName structure +:+ " WHERE ("
          +:+ String.concat " AND "
                (predicate <$> numbered 1 (primaries fields))
          +:+ ")" +:+ dq)
    ∧ iParams =
        TrimRight ("ctx context.Context, "
                     +:+ pieces ", " (parameter <$> primaries fields)) ", "
    ∧ whereValue =
        TrimRight (pieces ", " (Field.Name <$> primaries fields)) ", ".
Proof.
  intros fields. unfold selectRequest, selectLoop. fold fields.
  rewrite selectLoop_from, TrimRight_where.
  rewrite !app_nil_l, !TrimSuffix_pieces. eauto.
Qed.

Lemma deleteRequest_parts structure :
  let fields := Structure.fields structure in
  ∃ iParams whereValue,
    deleteRequest structure =
      (iParams,
       String.concat " AND " (predicate <$> numbered 1 (primaries fields)),
       whereValue,
       dq +:+ "DELETE FROM " +:+ Structure.tableName structure +:+ " WHERE ("
          +:+ String.concat " AND "
                (predicate <$> numbered 1 (primaries fields))
          +:+ ")" +:+ dq)
    ∧ iParams =
        TrimRight ("ctx context.Context, "
                     +:+ pieces ", " (parameter <$> primaries fields)) ", "
    ∧ whereValue =
        TrimRight (pieces ", " (Field.Name <$> primaries fields)) ", ".
Proof.
  intros fields. unfold deleteRequest, deleteLoop. fold fields.
  rewrite deleteLoop_from, TrimRight_where.
  rewrite !app_nil_l. eauto.
Qed.

Lemma updateRequest_parts structure :
  let fields := Structure.fields structure in
  ∃ valueString,
    updateRequest structure =
      (String.concat " AND " (predicate <$> whereFields 1 fields),
       String.concat ", " (predicate <$> setFields 1 fields),
       valueString,
       dq +:+ "UPDATE " +:+ Structure.tableName structure +:+ " SET ("
          +:+ String.concat ", " (predicate <$> setFields 1 fields)
          +:+ ") WHERE ("
          +:+ String.concat " AND " (predicate <$> whereFields 1 fields)
          +:+ ")" +:+ dq)
    ∧ valueString = TrimRight (pieces ", " (dataValue <$> fields)) ", ".
Proof.
  intros fields. unfold updateRequest, updateLoop. fold fields.
  rewrite updateLoop_from, TrimRight_where.
  rewrite !app_nil_l.
  rewrite (TrimRight_pieces ", " ", " predicate);
    [|done|intros p _; apply endsOutside_predicate].
  eauto.
Qed.
End sql_texts.

(** X1.  The SQL statements of Select, Delete and Update have their
    form for every structure, whatever its field names, types and
    columns are: the column list of Select has one entry per field (an
    empty one for a field without a column tag), the WHERE clauses are
    the predicates of the primary fields numbered from 1 (Select,
    Delete) or by the position of the field (Update), and Update's SET
    clause is the predicates of the other fields. *)
Theorem sql_texts_of_any_structure (structure : Structure.t) :
  let fields := Structure.fields structure in
  let table := Structure.tableName structure in
  let keys := filter (λ field, isPrimary field) fields in
  let countedKeys := zip (seqZ 1 (Z.of_nat (length keys))) keys in
  let counted := zip (seqZ 1 (Z.of_nat (length fields))) fields in
  let whereL := filter (λ p, isPrimary p.2) counted in
  let setL := filter (λ p, ¬ isPrimary p.2) counted in
  (selectRequest structure).2 =
    dq +:+ "SELECT (" +:+ String.concat ", " (column <$> fields)
       +:+ ") FROM " +:+ table +:+ " WHERE ("
       +:+ String.concat " AND " (predicate <$> countedKeys) +:+ ")" +:+ dq
  ∧ (deleteRequest structure).2 =
    dq +:+ "DELETE FROM " +:+ table +:+ " WHERE ("
       +:+ String.concat " AND " (predicate <$> countedKeys) +:+ ")" +:+ dq
  ∧ (updateRequest structure).2 =
    dq +:+ "UPDATE " +:+ table +:+ " SET ("
       +:+ String.concat ", " (predicate <$> setL) +:+ ") WHERE ("
       +:+ String.concat " AND " (predicate <$> whereL) +:+ ")" +:+ dq.
Proof.
  intros fields table keys countedKeys counted whereL setL.
  destruct (selectRequest_parts structure) as (? & ? & -> & _).
  destruct (deleteRequest_parts structure) as (? & ? & -> & _).
  destruct (updateRequest_parts structure) as (? & -> & _).
  unfold whereL, setL, counted, countedKeys, keys.
  rewrite <- !numbered_zip. done.
Qed.

(** X2.  Select and Delete of a structure take the same input
    parameters, the same WHERE clause and the same WHERE values, for
    every structure. *)
Theorem select_delete_agree (structure : Structure.t) :
  ∃ iParams whereString whereValue paramsString scanString selectSQL deleteSQL,
    selectRequest structure =
      (iParams, whereString, whereValue, paramsString, scanString, selectSQL)
    ∧ deleteRequest structure =
      (iParams, whereString, whereValue, deleteSQL)
    ∧ Method.iParams (generateSelect structure) = iParams
    ∧ Method.iParams (generateDelete structure) = iParams.
Proof.
  destruct (selectRequest_parts structure) as (ip & wv & Hs & -> & ->).
  destruct (deleteRequest_parts structure) as (ip' & wv' & Hd & -> & ->).
  do 7 eexists. split; [exact Hs|]. split; [exact Hd|].
  unfold generateSelect, generateDelete. by rewrite Hs, Hd.
Qed.

Section create_columns.
Implicit Types (s t cutset sep : string) (l : list string).

Lemma allIn_app cutset s t :
  allIn cutset (s +:+ t) = allIn cutset s && allIn cutset t.
Proof.
  induction s as [|c s IH]; [done|]. rewrite app_cons. simpl.
  by rewrite IH, andb_assoc.
Qed.

Lemma pieces_app sep l1 l2 :
  pieces sep (l1 ++ l2) = pieces sep l1 +:+ pieces sep l2.
Proof. unfold pieces. by rewrite fmap_app, cat_app. Qed.

Lemma allIn_pieces_empty cutset sep l :
  allIn cutset sep → Forall (λ s, s = "") l → allIn cutset (pieces sep l).
Proof.
  intros Hsep. induction 1 as [|s l -> _ IH]; [done|].
  rewrite pieces_cons, app_nil_l, allIn_app. by apply andb_True.
Qed.
End create_columns.

(** X3.  The column list of Create.  Let the fields of a structure be
    [front] followed by [tail], where no field of [tail] has a column tag
    and the last field of [front], when there is one, has a column that
    is not empty and does not end in a comma or a space.  Then Create's
    column list is the columns of [front] alone, joined by commas, while
    its placeholders are $1..$n and its values [data.<FieldName>] for all
    the n fields.  With an empty [tail] the three lists have one entry
    per field. *)
Theorem create_lists (structure : Structure.t) (front tail : list Field.t) :
  let fields := Structure.fields structure in
  let columns := String.concat ", " (column <$> front) in
  let placeholders :=
    String.concat ", " (placeholder <$> seqZ 1 (Z.of_nat (length fields))) in
  fields = (front ++ tail)%list →
  Forall (λ field, wfField field) fields →
  Forall (λ field, column field = "") tail →
  (∀ field, last front = Some field → endsOutside ", " (column field)) →
  createRequest structure =
    (columns, placeholders,
     dq +:+ "INSERT INTO " +:+ Structure.tableName structure +:+ " ("
        +:+ columns +:+ ") VALUES (" +:+ placeholders +:+ ")" +:+ dq,
     String.concat ", " (dataValue <$> fields)).
Proof.
  intros fields columns placeholders Hfields Hwf Htail Hfront.
  unfold createRequest, createLoop. fold fields.
  rewrite createLoop_from, numbered_fst, !app_nil_l.
  rewrite (TrimRight_pieces ", " ", " placeholder);
    [|done|intros i _; apply endsOutside_placeholder].
  rewrite (TrimRight_pieces ", " ", " dataValue); [|done|].
  2:{ intros field Hf. apply wfField_dataValue.
      exact (Forall_last (λ field, wfField field) _ _ Hwf Hf). }
  replace (column <$> fields)
    with ((column <$> front) ++ (column <$> tail))%list
    by by rewrite Hfields, fmap_app.
  rewrite pieces_app, TrimRight_app_allIn.
  2:{ apply allIn_pieces_empty; [done|]. apply Forall_fmap. exact Htail. }
  rewrite (TrimRight_pieces ", " ", " column) by done. done.
Qed.

Lemma create_lists_witness :
  createRequest (userUntagged "model") =
    ("id", "$1, $2",
     dq +:+ "INSERT INTO testTable (id) VALUES ($1, $2)" +:+ dq,
     "data.ID, data.Name")
  ∧ createRequest (user "model") =
    ("id, name", "$1, $2",
     dq +:+ "INSERT INTO testTable (id, name) VALUES ($1, $2)" +:+ dq,
     "data.ID, data.Name").
Proof.
  split.
  - rewrite (create_lists (userUntagged "model") [fieldID]
               [Field.mk "Name" "string" ∅]).
    + reflexivity.
    + reflexivity.
    + repeat (constructor; [exact I|]); constructor.
    + repeat (constructor; [reflexivity|]); constructor.
    + intros field [= <-]. exact I.
  - rewrite (create_lists (user "model") [fieldID; fieldName] []).
    + reflexivity.
    + reflexivity.
    + repeat (constructor; [exact I|]); constructor.
    + constructor.
    + intros field [= <-]. exact I.
Defined.

Section update_edges.
Implicit Types (fields : list Field.t) (index : Z).

Lemma update_fields_no_key fields index :
  Forall (λ field, isPrimary field = false) fields →
  whereFields index fields = [] ∧ setFields index fields = numbered index fields.
Proof.
  intros H. revert index. induction H as [|field fields Hf _ IH]; [done|].
  intros index. rewrite whereFields_cons, setFields_cons, Hf.
  destruct (IH (index + 1)%Z) as [-> ->]. done.
Qed.

Lemma update_fields_all_keys fields index :
  Forall (λ field, isPrimary field = true) fields →
  whereFields index fields = numbered index fields ∧ setFields index fields = [].
Proof.
  intros H. revert index. induction H as [|field fields Hf _ IH]; [done|].
  intros index. rewrite whereFields_cons, setFields_cons, Hf.
  destruct (IH (index + 1)%Z) as [-> ->]. done.
Qed.
End update_edges.

(** X4.  For every structure in which no field is tagged primary=true,
    Update sets every field, numbered $1..$n, and its WHERE clause is
    empty: [UPDATE <table> SET (c1 = $1, ..., cn = $n) WHERE ()]. *)
Theorem update_without_key (structure : Structure.t) :
  let fields := Structure.fields structure in
  let counted := zip (seqZ 1 (Z.of_nat (length fields))) fields in
  Forall (λ field, index_map (Field.tags field) "primary" ≠ "true") fields →
  (updateRequest structure).2 =
    dq +:+ "UPDATE " +:+ Structure.tableName structure +:+ " SET ("
       +:+ String.concat ", " (predicate <$> counted) +:+ ") WHERE ()" +:+ dq.
Proof.
  intros fields counted Hno.
  destruct (updateRequest_parts structure) as (? & -> & _). fold fields.
  destruct (update_fields_no_key fields 1) as [-> ->].
  { eapply Forall_impl; [done|]. intros field Hf. unfold isPrimary.
    by rewrite bool_decide_eq_false_2. }
  unfold counted. rewrite <- numbered_zip. reflexivity.
Qed.

Lemma update_without_key_witness :
  (updateRequest (note "model")).2 =
    dq +:+ "UPDATE testTable SET (text = $1) WHERE ()" +:+ dq.
Proof.
  rewrite (update_without_key (note "model")); [reflexivity|].
  repeat (constructor; [discriminate|]); constructor.
Defined.

(** X5.  For every structure in which every field is tagged
    primary=true, Update's SET clause is empty and its WHERE clause holds
    all the fields: [UPDATE <table> SET () WHERE (c1 = $1 AND ...)]. *)
Theorem update_all_keys (structure : Structure.t) :
  let fields := Structure.fields structure in
  let counted := zip (seqZ 1 (Z.of_nat (length fields))) fields in
  Forall (λ field, index_map (Field.tags field) "primary" = "true") fields →
  (updateRequest structure).2 =
    dq +:+ "UPDATE " +:+ Structure.tableName structure +:+ " SET () WHERE ("
       +:+ String.concat " AND " (predicate <$> counted) +:+ ")" +:+ dq.
Proof.
  intros fields counted Hall.
  destruct (updateRequest_parts structure) as (? & -> & _). fold fields.
  destruct (update_fields_all_keys fields 1) as [-> ->].
  { eapply Forall_impl; [done|]. intros field Hf. unfold isPrimary.
    by rewrite bool_decide_eq_true_2. }
  unfold counted. rewrite <- numbered_zip. reflexivity.
Qed.

Lemma update_all_keys_witness :
  (updateRequest (Structure.mk "model" "testTable" "Key" [fieldID])).2 =
    dq +:+ "UPDATE testTable SET () WHERE (id = $1)" +:+ dq.
Proof.
  rewrite (update_all_keys (Structure.mk "model" "testTable" "Key" [fieldID]));
    [reflexivity|].
  repeat (constructor; [reflexivity|]); constructor.
Defined.

(** X6.  The four methods of a structure have four different names,
    the structure's name followed by Create, Select, Update and
    Delete. *)
Theorem method_names_distinct (structure : Structure.t) :
  Method.name <$> Generator.methods (newGenerator structure) =
    (λ suffix, Structure.name structure +:+ suffix)
      <$> ["Create"; "Select"; "Update"; "Delete"]
  ∧ NoDup (Method.name <$> Generator.methods (newGenerator structure)).
Proof.
  assert (Method.name <$> Generator.methods (newGenerator structure) =
    (λ suffix, Structure.name structure +:+ suffix)
      <$> ["Create"; "Select"; "Update"; "Delete"]) as E.
  { cbn [newGenerator AddMethod AddImport AddHeader Generator.methods app
         fmap list_fmap].
    unfold generateCreate, generateSelect, generateUpdate, generateDelete.
    destruct (createRequest structure) as [[[? ?] ?] ?].
    destruct (selectRequest structure) as [[[[[? ?] ?] ?] ?] ?].
    destruct (updateRequest structure) as [[[? ?] ?] ?].
    destruct (deleteRequest structure) as [[[? ?] ?] ?]. done. }
  split; [done|]. rewrite E. apply NoDup_fmap_2; [apply _|].
  apply NoDup_ListNoDup. repeat constructor; simpl; intuition discriminate.
Qed.

(** X7.  A structure without fields is accepted, and its four requests
    have empty lists: [INSERT INTO <table> () VALUES ()],
    [SELECT () FROM <table> WHERE ()], [UPDATE <table> SET () WHERE ()]
    and [DELETE FROM <table> WHERE ()]. *)
Theorem no_fields (packageName tableName name : string) :
  let structure := Structure.mk packageName tableName name [] in
  getStructure packageName (TypeSpec.mk name (StructType [])) =
    Ok (Structure.mk packageName "testTable" name [])
  ∧ createRequest structure =
    ("", "", dq +:+ "INSERT INTO " +:+ tableName +:+ " () VALUES ()" +:+ dq, "")
  ∧ selectRequest structure =
    ("ctx context.Context", "", "", "", "",
     dq +:+ "SELECT () FROM " +:+ tableName +:+ " WHERE ()" +:+ dq)
  ∧ updateRequest structure =
    ("", "", "", dq +:+ "UPDATE " +:+ tableName +:+ " SET () WHERE ()" +:+ dq)
  ∧ deleteRequest structure =
    ("ctx context.Context", "", "",
     dq +:+ "DELETE FROM " +:+ tableName +:+ " WHERE ()" +:+ dq).
Proof. intros structure. repeat split. Qed.

(** * Further properties of the normaliser *)

Section tag_tokens.
Implicit Types (l tagsArr : list string) (tagMap m : gmap string string).

Lemma list_pair_ind {A} (P : list A → Prop) :
  P [] → (∀ x, P [x]) → (∀ x y (k : list A), P k → P (x :: y :: k)) →
  ∀ k : list A, P k.
Proof.
  intros Hnil Hone Hstep.
  assert (∀ k : list A, P k ∧ ∀ x, P (x :: k)) as H.
  { induction k as [|y k [IH1 IH2]]; [by split|]. split; [apply IH2|].
    intros x. by apply Hstep. }
  intros k. apply H.
Qed.

Lemma fillTagMap_Ok tagsArr tagMap m :
  fillTagMap tagsArr tagMap = Ok m →
  Nat.Even (length tagsArr) ∧ m = pairUp tagsArr tagMap.
Proof.
  revert tagMap. induction tagsArr as [|x|key value tagsArr IH]
    using list_pair_ind; intros tagMap; simpl.
  - intros [= <-]. split; [by exists 0|done].
  - done.
  - intros [[n Hn] ->]%IH. split; [|done]. exists (S n). lia.
Qed.

Lemma pairUp_lookup l tagMap k :
  is_Some (pairUp l tagMap !! k) ↔ k ∈ keysOf l ∨ is_Some (tagMap !! k).
Proof.
  revert tagMap. induction l as [|x|key value l IH] using list_pair_ind;
    intros tagMap; simpl.
  - rewrite elem_of_nil. tauto.
  - rewrite elem_of_nil. tauto.
  - rewrite IH, elem_of_cons. destruct (decide (k = key)) as [->|Hk].
    + rewrite lookup_insert_eq. split; [auto|]. intros _. right. eauto.
    + rewrite lookup_insert_ne by done. intuition congruence.
Qed.

Lemma Split_not_nil (s : string) (c : ascii) : Split s c ≠ [].
Proof.
  destruct s as [|d s]; [done|]. simpl. case_decide; [done|].
  by destruct (Split s c).
Qed.
End tag_tokens.

(** X8.  For every tag, present or not, whose token sequence has an odd
    length the normaliser panics with an index out of range, whatever the
    names and the type of the field are. *)
Theorem odd_token_count_panics (Tag : option string) :
  Nat.Odd (length (tagsArrOf Tag)) →
  tagMapOf Tag = Panic IndexOutOfRange
  ∧ ∀ Names Type_,
      getField (mkAstField Names Type_ Tag) = Panic IndexOutOfRange.
Proof.
  intros Hodd.
  assert (tagMapOf Tag = Panic IndexOutOfRange) as E
    by by apply fillTagMap_odd.
  split; [done|]. intros Names Type_. unfold getField. by rewrite E.
Qed.

Lemma odd_token_count_panics_witness :
  tagsArrOf (Some "``") = [""]
  ∧ getField (mkAstField ["ID"] (Ident "int64") (Some "``")) =
      Panic IndexOutOfRange.
Proof.
  split; [reflexivity|].
  apply (odd_token_count_panics (Some "``")). exists 0. reflexivity.
Defined.

(** X9.  When the normaliser returns a tag mapping, its keys are exactly
    the tokens at the even positions of the token sequence; and a field
    that has a tag string never gets the empty mapping (a tag string
    with no pair in it panics instead). *)
Theorem tag_mapping_keys (Tag : option string) (tagMap : gmap string string) :
  tagMapOf Tag = Ok tagMap →
  (∀ key, is_Some (tagMap !! key) ↔ key ∈ keysOf (tagsArrOf Tag))
  ∧ (is_Some Tag → tagMap ≠ ∅).
Proof.
  intros [Heven ->]%fillTagMap_Ok. split.
  - intros key. rewrite pairUp_lookup, lookup_empty.
    split; [intros [?|[? [=]]]; done|auto].
  - intros [a ->] Hempty.
    destruct (tagsArrOf (Some a)) as [|key [|value l]] eqn:E.
    + by apply Split_not_nil in E.
    + destruct Heven as [n Hn]. simpl in Hn. lia.
    + assert (is_Some (pairUp (key :: value :: l) ∅ !! key)) as [x Hx].
      { apply pairUp_lookup. left. apply list_elem_of_here. }
      by rewrite Hempty, lookup_empty in Hx.
Qed.

Lemma tag_mapping_keys_witness :
  tagMapOf (Some tagTwiceSpacedValue) =
    Ok {[ "column" := "a"; "b" := "c"; "primary" := "true" ]}
  ∧ (is_Some
       (({[ "column" := "a"; "b" := "c"; "primary" := "true" ]}
           : gmap string string) !! "b")
     ↔ "b" ∈ keysOf (tagsArrOf (Some tagTwiceSpacedValue))).
Proof.
  assert (tagMapOf (Some tagTwiceSpacedValue) =
    Ok {[ "column" := "a"; "b" := "c"; "primary" := "true" ]}) as E
    by reflexivity.
  split; [exact E|].
  exact (proj1 (tag_mapping_keys _ _ E) "b").
Defined.

Section readable_fields.
Implicit Types (v : AstField) (field : Field.t) (astFields : list AstField).

Lemma getField_Ok v field : getField v = Ok field ↔ fieldOf v field.
Proof.
  destruct v as [Names Type_ Tag]. unfold getField, fieldOf.
  destruct (tagMapOf Tag) as [tagMap|]; cbn [mbind result_bind];
    [|by split; [|intros (_ & _ & ?)]].
  destruct (fieldTypeOf Type_) as [fieldType|]; cbn [mbind result_bind];
    [|by split; [|intros (_ & ? & _)]].
  destruct Names as [|Name Names]; [by split; [|intros (? & _)]|].
  destruct field as [N T m]; cbn [head Field.Name Field.Type_ Field.tags].
  split; [by intros [= -> -> ->]|by intros ([= ->] & [= ->] & [= ->])].
Qed.

Lemma fieldTypeOf_supported Type_ :
  (∃ fieldType, fieldTypeOf Type_ = Ok fieldType) ↔ supportedType Type_.
Proof.
  destruct Type_ as [T|[X| | | | | |] Sel| | | | |]; simpl;
    (split; [by intros [? ?]|intros H; by eauto]).
Qed.

Lemma tagMapOf_even Tag :
  (∃ tagMap, tagMapOf Tag = Ok tagMap) ↔ Nat.Even (length (tagsArrOf Tag)).
Proof.
  split.
  - by intros [tagMap [? _]%fillTagMap_Ok].
  - intros H. eexists. by apply fillTagMap_even.
Qed.

Lemma getField_readable v : (∃ field, getField v = Ok field) ↔ fieldReadable v.
Proof.
  destruct v as [Names Type_ Tag]. unfold fieldReadable.
  rewrite <- fieldTypeOf_supported, <- tagMapOf_even. split.
  - intros [field (HN & HT & Hm)%getField_Ok]. split; [by destruct Names|eauto].
  - intros (HN & [T HT] & [m Hm]). destruct Names as [|Name Names]; [done|].
    exists (Field.mk Name T m). by apply getField_Ok.
Qed.

Lemma mapM_getField_Ok astFields (structFields : list Field.t) :
  mapM getField astFields = Ok structFields ↔
  Forall2 fieldOf astFields structFields.
Proof.
  revert structFields.
  induction astFields as [|v astFields IH]; intros structFields.
  - split; [intros [= <-]; constructor|by inversion 1].
  - cbn [mapM]. destruct (getField v) as [field|] eqn:Efield;
      cbn [mbind result_bind].
    + destruct (mapM getField astFields) as [fields|];
        cbn [mbind result_bind mret result_ret].
      * split.
        -- intros [= <-]. constructor; [by apply getField_Ok|by apply IH].
        -- inversion 1 as [|? field' ? fields' Hf Hfs]; subst.
           apply getField_Ok in Hf. apply IH in Hfs.
           rewrite Efield in Hf. injection Hf as ->. injection Hfs as ->.
           reflexivity.
      * split; [done|]. inversion 1 as [|? ? ? fields' _ Hfs]; subst.
        by apply IH in Hfs.
    + split; [done|]. inversion 1 as [|? field' ? ? Hf _]; subst.
      apply getField_Ok in Hf. congruence.
Qed.
End readable_fields.

(** X10.  When [getStructure] returns a structure, the declaration was a
    struct type; the structure has the package name given, the table name
    testTable and the name of the type; and it has one field per field of
    the declaration, in order, each with the first of the declared names
    (the other names of [A, B int] are dropped), the type rendered as
    [T] or [pkg.T], and the tag mapping of its tag. *)
Theorem getStructure_fields (packageName : string) (typeSpec : TypeSpec.t)
    (structure : Structure.t) :
  getStructure packageName typeSpec = Ok structure →
  ∃ astFields,
    TypeSpec.Type_ typeSpec = StructType astFields
    ∧ Structure.packageName structure = packageName
    ∧ Structure.tableName structure = "testTable"
    ∧ Structure.name structure = TypeSpec.Name typeSpec
    ∧ Forall2 fieldOf astFields (Structure.fields structure)
    ∧ length (Structure.fields structure) = length astFields.
Proof.
  unfold getStructure.
  destruct (TypeSpec.Type_ typeSpec) as [| | | | |astFields|]; try done.
  destruct (mapM getField astFields) as [structFields|] eqn:E; [|done].
  cbn [mbind result_bind]. intros [= <-]. exists astFields.
  apply mapM_getField_Ok in E. repeat split; [done|].
  symmetry. by eapply Forall2_length.
Qed.

Lemma getStructure_fields_witness :
  let typeSpec :=
    TypeSpec.mk "Point"
      (StructType [mkAstField ["X"; "Y"] (Ident "int") None]) in
  getStructure "model" typeSpec =
    Ok (Structure.mk "model" "testTable" "Point" [Field.mk "X" "int" ∅])
  ∧ length [Field.mk "X" "int" ∅] = 1.
Proof.
  intros typeSpec.
  assert (getStructure "model" typeSpec =
    Ok (Structure.mk "model" "testTable" "Point" [Field.mk "X" "int" ∅])) as E
    by reflexivity.
  split; [exact E|].
  destruct (getStructure_fields _ _ _ E) as (astFields & Ht & _ & _ & _ & _ & Hl).
  injection Ht as <-. exact Hl.
Defined.

(** X11.  [getStructure] returns a structure exactly when the declared
    type is a struct type each of whose fields has a name, a type of the
    shape [T] or [pkg.T] and a tag that is absent or splits into an even
    number of tokens; for every other declaration (an interface, a type
    alias, a field of pointer, slice or map type, an embedded field, a tag
    with an odd number of tokens) it panics. *)
Theorem getStructure_succeeds_iff (packageName : string)
    (typeSpec : TypeSpec.t) :
  (∃ structure, getStructure packageName typeSpec = Ok structure)
  ↔ ∃ astFields,
      TypeSpec.Type_ typeSpec = StructType astFields
      ∧ Forall fieldReadable astFields.
Proof.
  unfold getStructure. split.
  - intros [structure H].
    destruct (TypeSpec.Type_ typeSpec) as [| | | | |astFields|]; try done.
    exists astFields. split; [done|].
    destruct (mapM getField astFields) as [structFields|] eqn:E; [|done].
    apply mapM_getField_Ok in E. clear H.
    induction E as [|v field ? ? Hv _ IH]; constructor; [|done].
    apply getField_readable. exists field. by apply getField_Ok.
  - intros (astFields & -> & Hall).
    assert (∃ structFields, Forall2 fieldOf astFields structFields)
      as [structFields HF].
    { induction Hall as [|v astFields Hv _ [structFields IH]].
      - exists []. constructor.
      - apply getField_readable in Hv as [field Hv%getField_Ok].
        exists (field :: structFields). by constructor. }
    apply mapM_getField_Ok in HF. rewrite HF. cbn [mbind result_bind]. eauto.
Qed.

Lemma getStructure_succeeds_iff_witness :
  (∃ structure, getStructure "model" userSpec = Ok structure)
  ∧ ¬ (∃ structure,
         getStructure "model"
           (TypeSpec.mk "Ref"
              (StructType
                 [mkAstField ["Next"] (StarExpr (Ident "Ref")) None])) =
           Ok structure).
Proof.
  split.
  - apply getStructure_succeeds_iff. eexists. split; [reflexivity|].
    constructor.
    { split; [discriminate|]. split; [exact I|]. exists 2. reflexivity. }
    constructor.
    { split; [discriminate|]. split; [exact I|]. exists 1. reflexivity. }
    constructor.
  - intros H. apply getStructure_succeeds_iff in H as (astFields & Ht & Hall).
    injection Ht as <-. apply Forall_cons in Hall as [(_ & Hs & _) _].
    exact Hs.
Defined.

(** * Further properties of the renderer and of [main] *)

(** X12.  [GenerateFile] appends to the generator's buffer and never
    resets it: after one call the buffer holds what it held before
    followed by the header, the import block (one line per import, in
    insertion order, duplicates kept), the interface (one signature per
    method) and the methods; a second call on the same generator makes
    the buffer, and so the file written, hold that text twice.  The other
    fields of the generator are left as they were. *)
Theorem GenerateFile_appends (g : Generator.t) (w : World.t) :
  let text :=
    fileText (Generator.header g) (Generator.imports g)
      (Structure.name (Generator.structure g)) (Generator.methods g) in
  let g1 := (GenerateFile g w).1.2 in
  let w1 := (GenerateFile g w).2 in
  let g2 := (GenerateFile g1 w1).1.2 in
  g1 = WriteString g text
  ∧ Generator.data g1 = Generator.data g +:+ text
  ∧ Generator.data g2 = Generator.data g +:+ text +:+ text
  ∧ ((GenerateFile g w).1.1, w1) =
      WriteFile w (Generator.filePath g) (Generator.data g +:+ text)
  ∧ ((GenerateFile g1 w1).1.1, (GenerateFile g1 w1).2) =
      WriteFile w1 (Generator.filePath g)
        (Generator.data g +:+ text +:+ text).
Proof.
  intros text g1 w1 g2.
  assert (∀ g w, GenerateFile g w =
    ((WriteFile w (Generator.filePath g) (Generator.data (renderData g))).1,
     renderData g,
     (WriteFile w (Generator.filePath g) (Generator.data (renderData g))).2))
    as HG.
  { intros g' w'. unfold GenerateFile. rewrite renderData_eq.
    cbn [WriteString Generator.filePath]. by destruct (WriteFile _ _ _). }
  assert (g1 = WriteString g text) as E1.
  { unfold g1. rewrite HG. cbn [fst snd]. apply renderData_eq. }
  assert (Generator.data (renderData g1) =
            Generator.data g +:+ text +:+ text) as E2.
  { rewrite renderData_eq, E1. cbn [WriteString Generator.data
      Generator.header Generator.imports Generator.structure
      Generator.methods]. by rewrite app_assoc. }
  split; [done|]. split; [by rewrite E1|]. split.
  { unfold g2. rewrite HG. cbn [fst snd]. exact E2. }
  split.
  - unfold w1. rewrite HG. cbn [fst snd]. rewrite renderData_eq.
    cbn [WriteString Generator.data]. by destruct (WriteFile _ _ _).
  - rewrite HG. cbn [fst snd]. rewrite E2.
    replace (Generator.filePath g1) with (Generator.filePath g)
      by by rewrite E1.
    by destruct (WriteFile _ _ _).
Qed.

Section collect.
Implicit Types (v : Decl) (Decls : list Decl) (structures : list Structure.t).

Lemma typeSpecsOf_cons v Decls :
  typeSpecsOf (v :: Decls) = (typeSpecsOf [v] ++ typeSpecsOf Decls)%list.
Proof.
  unfold typeSpecsOf. cbn [mbind list_bind]. by rewrite List.app_nil_r.
Qed.

Lemma collectStep_Ok packageName structures v structures' :
  collectStep packageName structures v = Ok structures' →
  (∃ Tok Specs, v = GenDecl Tok Specs)
  ∧ ∃ new, structures' = (structures ++ new)%list
      ∧ Forall2 (λ typeSpec structure,
                   getStructure packageName typeSpec = Ok structure)
          (typeSpecsOf [v]) new.
Proof.
  destruct v as [| |Tok Specs]; [done..|]. intros H. split; [eauto|].
  unfold typeSpecsOf. cbn [mbind list_bind]. rewrite List.app_nil_r.
  simpl in H. destruct Tok; simpl in H;
    try (injection H as <-; exists []; rewrite List.app_nil_r;
         split; [done|constructor]).
  destruct Specs as [|[| |typeSpec] Specs]; [done..|].
  destruct (getStructure packageName typeSpec) as [structure|] eqn:E;
    [|done].
  injection H as <-. exists [structure]. split; [done|].
  by repeat constructor.
Qed.

Lemma collectLoop_Ok packageName Decls structures structures' :
  collectLoop packageName Decls structures = Ok structures' →
  Forall (λ v, ∃ Tok Specs, v = GenDecl Tok Specs) Decls
  ∧ ∃ new, structures' = (structures ++ new)%list
      ∧ Forall2 (λ typeSpec structure,
                   getStructure packageName typeSpec = Ok structure)
          (typeSpecsOf Decls) new.
Proof.
  revert structures. induction Decls as [|v Decls IH]; intros structures.
  - intros [= <-]. split; [constructor|]. exists [].
    rewrite List.app_nil_r. split; [done|constructor].
  - cbn [collectLoop].
    destruct (collectStep packageName structures v) as [mid|] eqn:Estep;
      [|done].
    cbn [mbind result_bind]. intros Hrest.
    apply collectStep_Ok in Estep as (Hgen & new1 & -> & H1).
    apply IH in Hrest as (Hall & new2 & -> & H2).
    split; [by constructor|]. exists (new1 ++ new2)%list.
    split; [by rewrite (assoc_L (++))|].
    rewrite typeSpecsOf_cons. by apply Forall2_app.
Qed.

Lemma collectStep_firstSpecOnly packageName structures v :
  collectStep packageName structures (firstSpecOnly v) =
    collectStep packageName structures v.
Proof.
  destruct v as [| |Tok Specs]; [done..|]. simpl.
  case_decide; [|done]. by destruct Specs as [|[] ?].
Qed.
End collect.

(** X13.  When the loop over the declarations of a file completes, every
    declaration of the file was an import, const, var or type
    declaration (a function declaration makes it panic), and the
    structures are those of the first specification of each type
    declaration, in order: the later specifications of a grouped
    [type ( ... )] declaration give no structure. *)
Theorem collectStructures_Ok (packageName : string) (Decls : list Decl)
    (structures : list Structure.t) :
  collectStructures packageName Decls = Ok structures →
  Forall (λ v, ∃ Tok Specs, v = GenDecl Tok Specs) Decls
  ∧ Forall2 (λ typeSpec structure,
               getStructure packageName typeSpec = Ok structure)
      (typeSpecsOf Decls) structures
  ∧ length structures = length (typeSpecsOf Decls).
Proof.
  intros (Hall & new & E & H2)%collectLoop_Ok. simpl in E. subst new.
  split; [done|]. split; [done|]. symmetry. by eapply Forall2_length.
Qed.

Lemma collectStructures_Ok_witness :
  let Decls :=
    [GenDecl IMPORT [SpecImport];
     GenDecl TYPE
       [SpecType userSpec;
        SpecType (TypeSpec.mk "Other" (StructType []))]] in
  collectStructures "model" Decls = Ok [user "model"]
  ∧ length [user "model"] = length (typeSpecsOf Decls).
Proof.
  intros Decls.
  assert (collectStructures "model" Decls = Ok [user "model"]) as E
    by reflexivity.
  split; [exact E|].
  exact (proj2 (proj2 (collectStructures_Ok _ _ _ E))).
Defined.

(** X14.  The loop over the declarations reads the first specification
    of a declaration and nothing after it: cutting every declaration down
    to its first specification changes neither the structures returned
    nor a panic. *)
Theorem collectStructures_first_spec (packageName : string)
    (Decls : list Decl) :
  collectStructures packageName (firstSpecOnly <$> Decls) =
    collectStructures packageName Decls.
Proof.
  unfold collectStructures. generalize (@nil Structure.t).
  induction Decls as [|v Decls IH]; intros structures; [done|].
  cbn [fmap list_fmap collectLoop]. rewrite collectStep_firstSpecOnly.
  destruct (collectStep packageName structures v); [|done].
  cbn [mbind result_bind]. apply IH.
Qed.

Section generate_all.
Implicit Types (structure : Structure.t) (structures : list Structure.t)
  (w : World.t) (files : gmap string string).

Lemma app_inj_r (s1 s2 t : string) : s1 +:+ t = s2 +:+ t → s1 = s2.
Proof.
  revert s2. induction s1 as [|c s1 IH]; intros [|d s2] H.
  - done.
  - apply (f_equal String.length) in H. rewrite !length_app in H.
    simpl in H. lia.
  - apply (f_equal String.length) in H. rewrite !length_app in H.
    simpl in H. lia.
  - rewrite !app_cons in H. injection H as -> H. f_equal. by apply IH.
Qed.

Lemma repositoryPath_inj structure1 structure2 :
  repositoryPath structure1 = repositoryPath structure2 →
  Structure.name structure1 = Structure.name structure2.
Proof.
  unfold repositoryPath. intros H.
  apply (inj (String.app "repository/")) in H. by apply app_inj_r in H.
Qed.

Lemma Generate_writable structure w :
  World.writable w (repositoryPath structure) = true →
  Generate structure w =
    (None,
     World.mk (filesAfter [structure] (World.files w)) (World.writable w)).
Proof. intros Hw. rewrite Generate_eq. unfold WriteFile. by rewrite Hw. Qed.

Lemma generateAll_writable structures w :
  Forall (λ structure,
            World.writable w (repositoryPath structure) = true) structures →
  generateAll structures w =
    (None,
     World.mk (filesAfter structures (World.files w)) (World.writable w)).
Proof.
  intros H. revert w H.
  induction structures as [|structure structures IH]; intros w H.
  - by destruct w.
  - apply Forall_cons in H as [Hs H]. cbn [generateAll].
    rewrite Generate_writable by done. rewrite IH; [done|]. exact H.
Qed.

Lemma filesAfter_cons structure structures files :
  filesAfter (structure :: structures) files =
    filesAfter structures
      (<[repositoryPath structure := repositoryText structure]> files).
Proof. reflexivity. Qed.

Lemma filesAfter_app structures1 structures2 files :
  filesAfter (structures1 ++ structures2) files =
    filesAfter structures2 (filesAfter structures1 files).
Proof. apply foldl_app. Qed.

Lemma filesAfter_other structures files path :
  path ∉ repositoryPath <$> structures →
  filesAfter structures files !! path = files !! path.
Proof.
  revert files. induction structures as [|structure structures IH];
    intros files Hpath; [done|].
  rewrite fmap_cons, not_elem_of_cons in Hpath. destruct Hpath as [Hne Hpath].
  rewrite filesAfter_cons, IH by done. by rewrite lookup_insert_ne.
Qed.

Lemma filesAfter_last structures1 structure structures2 files :
  Forall (λ later, Structure.name later ≠ Structure.name structure)
    structures2 →
  filesAfter (structures1 ++ structure :: structures2) files
    !! repositoryPath structure = Some (repositoryText structure).
Proof.
  intros Hlater. rewrite filesAfter_app, filesAfter_cons, filesAfter_other.
  - apply lookup_insert_eq.
  - intros (later & Hpath & Hin)%list_elem_of_fmap.
    apply repositoryPath_inj in Hpath. rewrite Forall_forall in Hlater.
    exact (Hlater later Hin (eq_sym Hpath)).
Qed.
End generate_all.

(** X15.  When every file can be written, the loop over the structures
    ends without an error; the file of a structure then holds the text of
    that structure unless a later structure has the same name (the later
    one overwrites it), and every other file is left as it was. *)
Theorem generateAll_files (structures1 structures2 : list Structure.t)
    (structure : Structure.t) (w : World.t) :
  let structures := (structures1 ++ structure :: structures2)%list in
  Forall (λ structure,
            World.writable w (repositoryPath structure) = true) structures →
  Forall (λ later, Structure.name later ≠ Structure.name structure)
    structures2 →
  (generateAll structures w).1 = None
  ∧ World.files (generateAll structures w).2 !! repositoryPath structure =
      Some (repositoryText structure)
  ∧ ∀ path, path ∉ repositoryPath <$> structures →
      World.files (generateAll structures w).2 !! path =
        World.files w !! path.
Proof.
  intros structures Hw Hlater. rewrite generateAll_writable by done.
  cbn [fst snd World.files]. split; [done|]. split.
  - by apply filesAfter_last.
  - intros path Hpath. by apply filesAfter_other.
Qed.

Lemma generateAll_files_witness :
  let w := World.mk {[ "go.mod" := "module model" ]} (λ _, true) in
  let out := (generateAll [note "model"; user "model"] w).2 in
  World.files out !! "repository/Note_repository.go" =
    Some (repositoryText (note "model"))
  ∧ World.files out !! "go.mod" = Some "module model".
Proof.
  intros w out.
  assert (Forall (λ structure,
            World.writable w (repositoryPath structure) = true)
            ([] ++ note "model" :: [user "model"])) as Hw
    by (repeat (constructor; [reflexivity|]); constructor).
  assert (Forall (λ later, Structure.name later ≠ Structure.name (note "model"))
            [user "model"]) as Hlater
    by (repeat (constructor; [discriminate|]); constructor).
  destruct (generateAll_files [] [user "model"] (note "model") w Hw Hlater)
    as (_ & Hfile & Hother).
  split; [exact Hfile|].
  transitivity (World.files w !! "go.mod"); [|reflexivity].
  apply (Hother "go.mod"). intros Hin. apply list_elem_of_In in Hin. simpl in Hin.
  destruct Hin as [[=]|[[=]|[]]].
Defined.

(** X16.  The loop over the structures stops at the first file that
    cannot be written: the error of that write is the one the program
    panics with, the files of the structures before it stay written, and
    the structures after it are not generated. *)
Theorem generateAll_stops (structures1 structures2 : list Structure.t)
    (structure : Structure.t) (w : World.t) :
  Forall (λ structure,
            World.writable w (repositoryPath structure) = true) structures1 →
  World.writable w (repositoryPath structure) = false →
  generateAll (structures1 ++ structure :: structures2) w =
    (Some (PathError "open" (repositoryPath structure)),
     World.mk (filesAfter structures1 (World.files w)) (World.writable w)).
Proof.
  intros H1 Hs. revert w H1 Hs.
  induction structures1 as [|first structures1 IH]; intros w H1 Hs.
  - cbn [app generateAll]. rewrite Generate_eq. unfold WriteFile.
    rewrite Hs. by destruct w.
  - apply Forall_cons in H1 as [Hf H1]. cbn [app generateAll].
    rewrite Generate_writable by done. rewrite IH; [done|exact H1|exact Hs].
Qed.

Lemma generateAll_stops_witness :
  let w :=
    World.mk ∅ (λ name, bool_decide (name = "repository/Note_repository.go")) in
  generateAll [note "model"; user "model"; note "other"] w =
    (Some (PathError "open" "repository/User_repository.go"),
     World.mk
       {[ "repository/Note_repository.go" := repositoryText (note "model") ]}
       (World.writable w)).
Proof.
  intros w.
  assert (Forall (λ structure,
            World.writable w (repositoryPath structure) = true)
            [note "model"]) as Hw
    by (repeat (constructor; [reflexivity|]); constructor).
  exact (generateAll_stops [note "model"] [note "other"] (user "model") w
           Hw eq_refl).
Defined.

(** X17.  For every structure, the body of the generated Select method
    is, in this order: the QueryRow call with the request and the WHERE
    values, scanned into [element.<FieldName>] for every field; the
    branch that returns [nil] and the error wrapped with the method's own
    name; and [return element, nil].  Its result parameters are the
    element and the error. *)
Theorem select_method_contract (structure : Structure.t) :
  ∃ iParams whereString whereValue paramsString selectSQL,
    selectRequest structure =
      (iParams, whereString, whereValue, paramsString,
       String.concat ", " (scanTarget <$> Structure.fields structure),
       selectSQL)
    ∧ generateSelect structure =
        Method.mk
          ("// " +:+ (Structure.name structure +:+ "Select") +:+ " get "
             +:+ Structure.name structure +:+ " from database by pk")
          (Structure.name structure +:+ "Select")
          iParams
          ("element *" +:+ Structure.packageName structure +:+ "."
             +:+ Structure.name structure +:+ ", err error")
          (queryCall selectSQL whereValue
             (String.concat ", " (scanTarget <$> Structure.fields structure))
             +:+ queryErrorBranch (Structure.name structure +:+ "Select")
             +:+ returnElement).
Proof.
  destruct (selectRequest_parts structure) as (ip & wv & Hs & _ & _).
  do 5 eexists. split; [exact Hs|].
  unfold generateSelect. rewrite Hs.
  unfold generateQueryRow, queryCall, queryErrorBranch, returnElement.
  rewrite !app_nil_l, !app_assoc. reflexivity.
Qed.

(** * [generateDirPath] *)

Section dir_path.
Implicit Types (s path : string) (l folders : list string).

Lemma HasSuffix_nil s : HasSuffix s "" = true.
Proof.
  induction s as [|c s IH]; [done|]. simpl. first [exact IH|by case_decide].
Qed.

Lemma TrimSuffix_nil s : TrimSuffix s "" = s.
Proof.
  unfold TrimSuffix. rewrite HasSuffix_nil.
  change (String.length "") with 0. rewrite Nat.sub_0_r.
  pose proof (substring_app s "") as H. by rewrite app_nil_r in H.
Qed.

Lemma foldl_folders l path :
  foldl (λ path folder, (path +:+ folder) +:+ "/") path l =
    path +:+ pieces "/" l.
Proof.
  revert path. induction l as [|folder l IH]; intros path.
  - by rewrite pieces_nil, app_nil_r.
  - cbn [foldl]. by rewrite IH, pieces_cons, !app_assoc.
Qed.
End dir_path.

(** X18.  When the directory of the generator's file path is [model] and
    its absolute path is the components [parts] joined by slashes, none
    holding a slash or a space, [generateDirPath] returns the components
    but the last, each followed by a slash: the parent directory with a
    slash at its end. *)
Theorem generateDirPath_model (Dir : string → string)
    (Abs : string → string + string) (g : Generator.t)
    (parts : list string) :
  Dir (Generator.filePath g) = "model" →
  parts ≠ [] → Forall pathPart parts →
  Abs "model" = inl (String.concat "/" parts) →
  generateDirPath Dir Abs g =
    inl (pieces "/" (take (length parts - 1) parts)).
Proof.
  intros HDir Hne Hparts HAbs. unfold generateDirPath.
  rewrite HDir, decide_True, HAbs by done.
  rewrite TrimSuffix_nil.
  assert (Split (ReplaceAll (String.concat "/" parts) "/" " ") " " = parts)
    as ->.
  { rewrite <- (list_fmap_id parts) at 1. rewrite ReplaceAll_concat.
    rewrite (Forall_fmap_ext_1 _ id).
    2:{ eapply Forall_impl; [done|]. intros s [Hs _].
        by apply ReplaceAll_absent. }
    rewrite list_fmap_id.
    change (ReplaceAll "/" "/" " ") with " ".
    apply Split_concat; [done|].
    eapply Forall_impl; [done|]. by intros s [_ Hs]. }
  by rewrite foldl_folders, app_nil_l.
Qed.

Lemma generateDirPath_model_witness :
  generateDirPath (λ _, "model") (λ _, inl "/srv/app/model")
    (newGenerator (user "model")) = inl "/srv/app/".
Proof.
  rewrite (generateDirPath_model (λ _, "model") (λ _, inl "/srv/app/model")
             (newGenerator (user "model")) [""; "srv"; "app"; "model"]).
  - reflexivity.
  - reflexivity.
  - discriminate.
  - repeat (constructor; [split; reflexivity|]); constructor.
  - reflexivity.
Defined.

(** * Further properties: value lists and tag tokens *)

(** X19.  Create and Update of a structure pass the same value list to
    the exec call and take the same input parameters, for every
    structure. *)
Theorem create_update_agree (structure : Structure.t) :
  ∃ columns placeholders insertSQL whereString setString updateSQL values,
    createRequest structure = (columns, placeholders, insertSQL, values)
    ∧ updateRequest structure = (whereString, setString, values, updateSQL)
    ∧ Method.iParams (generateCreate structure) =
        Method.iParams (generateUpdate structure)
    ∧ Method.oParams (generateCreate structure) =
        Method.oParams (generateUpdate structure).
Proof.
  destruct (updateRequest_parts structure) as (values & Hu & ->).
  assert (∃ columns placeholders insertSQL,
    createRequest structure =
      (columns, placeholders, insertSQL,
       TrimRight
         (pieces ", " (dataValue <$> Structure.fields structure)) ", "))
    as (columns & placeholders & insertSQL & Hc).
  { unfold createRequest, createLoop. rewrite createLoop_from, !app_nil_l.
    eauto. }
  do 7 eexists. split; [exact Hc|]. split; [exact Hu|].
  unfold generateCreate, generateUpdate. by rewrite Hc, Hu.
Qed.

Section plain_tokens.
Implicit Types (s new : string) (c old sep : ascii).

Lemma contains_ReplaceAll s old new c :
  contains new c = false → (c = old ∨ contains s c = false) →
  contains (ReplaceAll s old new) c = false.
Proof.
  intros Hnew. induction s as [|d s IH]; [done|]. intros Hs. simpl.
  rewrite contains_app. apply orb_false_intro.
  - case_decide as Hd; [done|]. simpl. destruct Hs as [->|Hs].
    + by rewrite decide_False by done.
    + simpl in Hs. by destruct (decide (c = d)).
  - apply IH. destruct Hs as [->|Hs]; [by left|right].
    simpl in Hs. by destruct (decide (c = d)).
Qed.

Lemma contains_Split s sep c :
  c = sep ∨ contains s c = false →
  Forall (λ t, contains t c = false) (Split s sep).
Proof.
  induction s as [|d s IH]; [by repeat constructor|]. intros Hs. simpl.
  assert (c = sep ∨ contains s c = false) as Hs'.
  { destruct Hs as [->|Hs]; [by left|right].
    simpl in Hs. by destruct (decide (c = d)). }
  specialize (IH Hs'). case_decide as Hd.
  - by constructor.
  - destruct (Split s sep) as [|t ts]; apply Forall_cons in IH || idtac.
    + repeat constructor. simpl. destruct Hs as [->|Hs].
      * by rewrite decide_False by done.
      * simpl in Hs. by destruct (decide (c = d)).
    + destruct IH as [Ht Hts]. constructor; [|done]. simpl.
      destruct Hs as [->|Hs].
      * by rewrite decide_False by done.
      * simpl in Hs. by destruct (decide (c = d)).
Qed.

Lemma tagsArrOf_plain (Tag : option string) :
  Forall (λ t, plainToken t) (tagsArrOf Tag).
Proof.
  destruct Tag as [a|]; [|constructor]. unfold tagsArrOf.
  set (a1 := TrimSuffix a " ").
  set (a2 := ReplaceAll a1 "`" "").
  set (a3 := ReplaceAll a2 dquote "").
  set (a4 := ReplaceAll a3 ":" " ").
  assert (contains a2 "`" = false) as H2
    by (apply contains_ReplaceAll; [done|by left]).
  assert (contains a3 "`" = false ∧ contains a3 dquote = false) as [H3 H3'].
  { split; apply contains_ReplaceAll; [done|by right|done|by left]. }
  assert (contains a4 "`" = false ∧ contains a4 dquote = false
          ∧ contains a4 ":" = false) as (H4 & H4' & H4'').
  { repeat split; apply contains_ReplaceAll;
      [done|by right|done|by right|done|by left]. }
  pose proof (contains_Split a4 " " "`" (or_intror H4)) as T1.
  pose proof (contains_Split a4 " " dquote (or_intror H4')) as T2.
  pose proof (contains_Split a4 " " ":" (or_intror H4'')) as T3.
  pose proof (contains_Split a4 " " " " (or_introl eq_refl)) as T4.
  rewrite Forall_forall in T1, T2, T3, T4. apply Forall_forall.
  intros t Ht. unfold plainToken, tagPunctuation. simpl.
  rewrite (T1 t Ht), (T2 t Ht), (T3 t Ht), (T4 t Ht). done.
Qed.

Lemma pairUp_lookup_Some (l : list string) (tagMap : gmap string string)
    (key value : string) :
  pairUp l tagMap !! key = Some value →
  (key ∈ l ∧ value ∈ l) ∨ tagMap !! key = Some value.
Proof.
  revert tagMap. induction l as [|x|k v l IH] using list_pair_ind;
    intros tagMap; simpl; [by right..|].
  intros [[Hk Hv]|H]%IH.
  - left. split; by do 2 apply list_elem_of_further.
  - destruct (decide (key = k)) as [->|Hne].
    + rewrite lookup_insert_eq in H. injection H as ->. left.
      split; [apply list_elem_of_here|].
      apply list_elem_of_further, list_elem_of_here.
    + rewrite lookup_insert_ne in H by done. by right.
Qed.
End plain_tokens.

(** X20.  No key and no value of a tag mapping that the normaliser
    returns holds a backtick, a double quote, a colon or a space: the
    normaliser deletes or splits at every one of them, wherever it
    stands in the tag string. *)
Theorem tag_mapping_plain (Tag : option string)
    (tagMap : gmap string string) (key value : string) :
  tagMapOf Tag = Ok tagMap → tagMap !! key = Some value →
  plainToken key ∧ plainToken value.
Proof.
  intros [_ ->]%fillTagMap_Ok [[Hk Hv]|H]%pairUp_lookup_Some; [|done].
  pose proof (tagsArrOf_plain Tag) as Hplain.
  rewrite Forall_forall in Hplain. split; by apply Hplain.
Qed.

Lemma tag_mapping_plain_witness :
  tagMapOf (Some tagID) = Ok {[ "column" := "id"; "primary" := "true" ]}
  ∧ plainToken "column" ∧ plainToken "id".
Proof.
  assert (tagMapOf (Some tagID) =
    Ok {[ "column" := "id"; "primary" := "true" ]}) as E by reflexivity.
  split; [exact E|].
  exact (tag_mapping_plain (Some tagID) _ "column" "id" E eq_refl).
Defined.

Lemma getStructure_wf_witness :
  Forall (λ field, wfField field) (Structure.fields (user "model")).
Proof.
  apply (getStructure_wf "model" userSpec (user "model")
           [mkAstField ["ID"] (Ident "int64") (Some tagID);
            mkAstField ["Name"] (Ident "string") (Some tagName)]).
  - reflexivity.
  - repeat (constructor; [split; [repeat constructor|exact I]|]); constructor.
  - reflexivity.
Defined.
